(** * GO enrichment statistics: a model of [go-tools/enrichment_stats.py]

    The development embeds the enrichment engine of the script (association
    counting, the one-sided hypergeometric test, base-term selection, the
    recursive tester with its memo table, and the multiple-testing
    correction) and proves properties of the embedded functions.

    Conventions of the embedding:
    - a Python [dict] with string keys is an insertion-ordered association
      list without repeated keys ([Dict.t]); item assignment replaces in
      place or appends, as CPython does;
    - a Python [set] of term identifiers is the list of its members in
      iteration order;
    - Python numbers ([int] counts and [float] p-values) stored in the result
      table are rationals ([Q]); integer counts are [Z];
    - a function that mutates the result table is a state transformer that
      can raise ([M]); the recursion of [recursiveTester] is bounded by a
      depth budget, and running out of it is the outcome [OutOfFuel]. *)

From Stdlib Require Import List String Ascii ZArith QArith Qminmax Bool Lia Arith.
From Stdlib Require Import Permutation Lqa.
Import ListNotations.

Local Open Scope string_scope.
Local Open Scope list_scope.
Local Open Scope Z_scope.

(** ** Python dictionaries with string keys *)

Module Dict.

Definition t (V : Type) : Type := list (string * V).

Definition empty {V : Type} : t V := [].

(** [d[k]], [None] standing for [KeyError]. *)
Fixpoint get {V : Type} (d : t V) (k : string) : option V :=
  match d with
  | [] => None
  | (k', v) :: d' => if String.eqb k' k then Some v else get d' k
  end.

(** [k in d]. *)
Definition mem {V : Type} (d : t V) (k : string) : bool :=
  match get d k with Some _ => true | None => false end.

(** [d[k] = v]: an existing key keeps its position, a new key goes last. *)
Fixpoint set {V : Type} (d : t V) (k : string) (v : V) : t V :=
  match d with
  | [] => [(k, v)]
  | (k', v') :: d' =>
      if String.eqb k' k then (k', v) :: d' else (k', v') :: set d' k v
  end.

Definition keys {V : Type} (d : t V) : list string := map fst d.
Definition values {V : Type} (d : t V) : list V := map snd d.
Definition items {V : Type} (d : t V) : list (string * V) := d.
Definition len {V : Type} (d : t V) : Z := Z.of_nat (List.length d).

(** [{k: v for k, v in kvs}]. *)
Definition of_items {V : Type} (kvs : list (string * V)) : t V :=
  fold_left (fun d kv => set d (fst kv) (snd kv)) kvs empty.

(** The representation invariant: no key occurs twice. *)
Definition wf {V : Type} (d : t V) : Prop := NoDup (keys d).

End Dict.

(** ** Sets of term identifiers *)

Definition term := string.

Definition mem_str (x : string) (l : list string) : bool :=
  existsb (String.eqb x) l.

(** [a.isdisjoint(b)]. *)
Definition isdisjoint (a b : list string) : bool :=
  negb (existsb (fun x => mem_str x b) a).

(** The members of a collection, each once, in order of first occurrence:
    what a set comprehension builds. *)
Fixpoint dedup (l : list string) : list string :=
  match l with
  | [] => []
  | x :: l' => x :: filter (fun y => negb (String.eqb x y)) (dedup l')
  end.

(** ** The hierarchy *)

(** Modelled from the spec: the GO term objects of [GOdict] (built by
    [importOBO], which is not part of this file).  A term has a display name,
    a namespace, the sets of its direct parents and children, and the
    precomputed sets of all its ancestors and descendants. *)
Record GOterm : Type := mkGOterm {
  name : string;
  namespace : string;
  parents : list term;
  children : list term;
  recursive_parents : list term;
  recursive_children : list term
}.

(** ** Association counting *)

(** [countGOassociations]: the number of genes of [gafDict] whose GO id set
    shares a member with [validTerms]. *)
Definition countGOassociations (validTerms : list term)
    (gafDict : Dict.t (list term)) : Z :=
  fold_left
    (fun GOcounter item =>
       if negb (isdisjoint validTerms (snd item)) then GOcounter + 1
       else GOcounter)
    (Dict.items gafDict) 0.

(** ** The hypergeometric test *)

(** Pascal's triangle. *)
Fixpoint binom (n k : nat) : nat :=
  match n, k with
  | _, O => 1
  | O, S _ => 0
  | S n', S k' => binom n' k' + binom n' k
  end%nat.

(** The binomial coefficient on integers, zero outside [0 <= k <= n]. *)
Definition comb (n k : Z) : Z :=
  if (k <? 0) || (n <? k) then 0
  else Z.of_nat (binom (Z.to_nat n) (Z.to_nat k)).

(** Probability of exactly [j] successes in [N] draws without replacement
    from a population of [M] holding [n] successes. *)
Definition hypergeom_pmf (j M n N : Z) : Q :=
  inject_Z (comb n j * comb (M - n) (N - j)) / inject_Z (comb M N).

(** The cumulative distribution: the mass of [0 .. k], nothing below [0]. *)
Definition hypergeom_cdf (k M n N : Z) : Q :=
  if k <? 0 then 0%Q
  else
    fold_left (fun acc j => (acc + hypergeom_pmf (Z.of_nat j) M n N)%Q)
              (seq 0 (S (Z.to_nat k))) 0%Q.

(** [scipy.stats.hypergeom.sf], the survival function [1 - cdf], on exact
    rationals. *)
Definition hypergeom_sf (k M n N : Z) : Q :=
  (1 - hypergeom_cdf k M n N)%Q.

(** [enrichmentOneSided]. *)
Definition enrichmentOneSided
    (subsetGO backgroundTotal backgroundGO subsetTotal : Z) : Q :=
  let pVal := hypergeom_sf (subsetGO - 1) backgroundTotal backgroundGO subsetTotal in
  pVal.

(** ** The result table and the effects on it *)

Inductive exn : Type :=
| KeyError (key : string).

(** How a call ends: normally, by a Python exception, or by exceeding the
    recursion depth it was given. *)
Inductive result (A : Type) : Type :=
| Ok (a : A)
| Raised (e : exn)
| OutOfFuel.

Arguments Ok {A} a.
Arguments Raised {A} e.
Arguments OutOfFuel {A}.

(** The mutable object shared by all calls of a run: [enrichmentTestResults],
    a dict of dicts, together with the record of the item assignments
    [enrichmentTestResults[sub][key] = ...] executed on it, oldest first.
    The record is never read by the program. *)
Record store : Type := mkStore {
  table : Dict.t (Dict.t Q);
  assigned : list (string * term)
}.

Definition M (A : Type) : Type := store -> result A * store.

Definition ret {A : Type} (a : A) : M A := fun s => (Ok a, s).

Definition bind {A B : Type} (m : M A) (k : A -> M B) : M B :=
  fun s =>
    match m s with
    | (Ok a, s') => k a s'
    | (Raised e, s') => (Raised e, s')
    | (OutOfFuel, s') => (OutOfFuel, s')
    end.

Definition raise {A : Type} (e : exn) : M A := fun s => (Raised e, s).

Definition out_of_fuel {A : Type} : M A := fun s => (OutOfFuel, s).

Declare Scope py_scope.
Delimit Scope py_scope with py.
Notation "x <- m ;; k" := (bind m (fun x => k))
  (at level 100, m at next level, right associativity) : py_scope.
Notation "m ;; k" := (bind m (fun _ => k))
  (at level 100, right associativity) : py_scope.
Local Open Scope py_scope.

(** [for x in l: body(x)]. *)
Fixpoint for_each {A : Type} (l : list A) (body : A -> M unit) : M unit :=
  match l with
  | [] => ret tt
  | x :: l' => body x ;; for_each l' body
  end.

(** [enrichmentTestResults[sub]]. *)
Definition getitem (sub : string) : M (Dict.t Q) :=
  fun s =>
    match Dict.get (table s) sub with
    | Some d => (Ok d, s)
    | None => (Raised (KeyError sub), s)
    end.

(** [enrichmentTestResults[sub][key] = v]. *)
Definition setitem (sub : string) (key : term) (v : Q) : M unit :=
  d <- getitem sub ;;
  fun s =>
    (Ok tt, {| table := Dict.set (table s) sub (Dict.set d key v);
               assigned := assigned s ++ [(sub, key)] |}).

(** [enrichmentTestResults[sub] = d]. *)
Definition setsub (sub : string) (d : Dict.t Q) : M unit :=
  fun s =>
    (Ok tt, {| table := Dict.set (table s) sub d; assigned := assigned s |}).

(** [GOdict[GOid]]. *)
Definition lookup_term (GOdict : Dict.t GOterm) (GOid : term) : M GOterm :=
  match Dict.get GOdict GOid with
  | Some t => ret t
  | None => raise (KeyError GOid)
  end.

(** [a > b] on p-values. *)
Definition Qgtb (a b : Q) : bool := negb (Qle_bool a b).

(** ** The recursive tester *)

Section Tester.

Variables backgroundTotal subsetTotal : Z.
Variable GOdict : Dict.t GOterm.
Variables gafDict gafSubset : Dict.t (list term).
Variable minGenes : Z.
Variable threshold : Q.

(** [recursiveTester].  [fuel] bounds the depth of the recursion; the other
    arguments are those of the source, the result table being the store. *)
Fixpoint recursiveTester (fuel : nat) (GOid : term) : M unit :=
  match fuel with
  | O => out_of_fuel
  | S fuel' =>
      pValues <- getitem "pValues" ;;
      if negb (Dict.mem pValues GOid) then
        t <- lookup_term GOdict GOid ;;
        let validTerms := GOid :: recursive_children t in
        let backgroundGO := countGOassociations validTerms gafDict in
        let subsetGO := countGOassociations validTerms gafSubset in
        if backgroundGO <? minGenes then
          for_each (parents t) (fun parent => recursiveTester fuel' parent)
        else
          let pVal :=
            enrichmentOneSided subsetGO backgroundTotal backgroundGO subsetTotal in
          setitem "pValues" GOid pVal ;;
          setitem "interestCount" GOid (inject_Z subsetGO) ;;
          setitem "backgroundCount" GOid (inject_Z backgroundGO) ;;
          if Qgtb pVal threshold then
            for_each (parents t) (fun parent => recursiveTester fuel' parent)
          else ret tt
      else ret tt
  end.

End Tester.

(** ** Base terms and the analysis *)

(** [{GOid for gene, GOids in gafSubset.items() for GOid in GOids}]. *)
Definition subsetGOids (gafSubset : Dict.t (list term)) : list term :=
  dedup (flat_map snd (Dict.items gafSubset)).

(** The members of [GOdict[GOid].recursive_parents] for each [GOid] of [ids]
    in turn. *)
Fixpoint ancestors_of (GOdict : Dict.t GOterm) (ids : list term)
    : M (list term) :=
  match ids with
  | [] => ret []
  | GOid :: ids' =>
      t <- lookup_term GOdict GOid ;;
      rest <- ancestors_of GOdict ids' ;;
      ret (recursive_parents t ++ rest)
  end.

(** [{parent for GOid in subsetGOids for parent in GOdict[GOid].recursive_parents}]. *)
Definition subsetGOidsParents (GOdict : Dict.t GOterm) (ids : list term)
    : M (list term) :=
  all <- ancestors_of GOdict ids ;;
  ret (dedup all).

(** [baseGOids]: the terms of the subset that are an ancestor of none. *)
Definition baseGOids (GOdict : Dict.t GOterm) (gafSubset : Dict.t (list term))
    : M (list term) :=
  let ids := subsetGOids gafSubset in
  anc <- subsetGOidsParents GOdict ids ;;
  ret (filter (fun GOid => negb (mem_str GOid anc)) ids).

(** The table [{'pValues': {}, 'interestCount': {}, 'backgroundCount': {}}]
    as the analysis creates it. *)
Definition new_results : store :=
  {| table := [("pValues", Dict.empty); ("interestCount", Dict.empty);
               ("backgroundCount", Dict.empty)];
     assigned := [] |}.

(** [enrichmentAnalysis], run on the table it creates: how the run ends (with
    the returned table) and the table as the run leaves it.  The two progress
    messages it prints are not modelled. *)
Definition enrichmentAnalysis (fuel : nat) (GOdict : Dict.t GOterm)
    (gafDict gafSubset : Dict.t (list term)) (minGenes : Z) (threshold : Q)
    : result (Dict.t (Dict.t Q)) * store :=
  (base <- baseGOids GOdict gafSubset ;;
   let backgroundTotal := Dict.len gafDict in
   let subsetTotal := Dict.len gafSubset in
   for_each base
     (fun GOid =>
        recursiveTester backgroundTotal subsetTotal GOdict gafDict gafSubset
                        minGenes threshold fuel GOid) ;;
   fun s => (Ok (table s), s)) new_results.

(** ** Multiple-testing correction *)

(** The correction itself is done by [multipletests] of the statsmodels
    library, which is not part of the script; the definitions below follow
    its documented results for the two methods the script asks for, on exact
    rationals, and take the library to return normally. *)

(** [pvals_corrected[pvals_corrected > 1] = 1]. *)
Definition clip1 (q : Q) : Q := if Qle_bool q 1 then q else 1%Q.

Definition Qminb (a b : Q) : Q := if Qle_bool a b then a else b.

(** Bonferroni: every p-value is multiplied by the number of tests. *)
Definition bonferroni (pvals : list Q) (alpha : Q) : list bool * list Q :=
  let ntests := inject_Z (Z.of_nat (List.length pvals)) in
  (map (fun p => Qle_bool p (alpha / ntests)) pvals,
   map (fun p => clip1 (p * ntests)) pvals).

(** Insertion into a list of indexed p-values sorted by p-value, behind the
    entries that are not larger. *)
Fixpoint insert_sorted (x : nat * Q) (l : list (nat * Q)) : list (nat * Q) :=
  match l with
  | [] => [x]
  | y :: l' =>
      if Qle_bool (snd y) (snd x) then y :: insert_sorted x l'
      else x :: y :: l'
  end.

(** [argsort]: the p-values with their positions, in ascending order. *)
Definition argsort (pvals : list Q) : list (nat * Q) :=
  fold_left (fun acc x => insert_sorted x acc)
            (combine (seq 0 (List.length pvals)) pvals) [].

(** [np.minimum.accumulate(l[::-1])[::-1]]: the running minimum from the right. *)
Fixpoint cummin_right (l : list Q) : list Q :=
  match l with
  | [] => []
  | x :: l' =>
      match cummin_right l' with
      | [] => [x]
      | m :: rest => Qminb x m :: m :: rest
      end
  end.

(** A hypothesis is rejected when it or a later one of the sorted list meets
    its step-up bound. *)
Fixpoint any_right (l : list bool) : list bool :=
  match l with
  | [] => []
  | x :: l' =>
      match any_right l' with
      | [] => [x]
      | m :: rest => (x || m)%bool :: m :: rest
      end
  end.

(** [l[i] = v], nothing when [i] is out of range. *)
Fixpoint update {A : Type} (i : nat) (v : A) (l : list A) : list A :=
  match l, i with
  | [], _ => []
  | _ :: l', O => v :: l'
  | x :: l', S i' => x :: update i' v l'
  end.

(** [out = empty(n); out[sortind] = vals]: the values back at the positions
    they were sorted from. *)
Definition unsort {A : Type} (sortind : list nat) (vals : list A) (default : A)
    : list A :=
  fold_left (fun out iv => update (fst iv) (snd iv) out)
            (combine sortind vals) (repeat default (List.length sortind)).

(** Benjamini-Hochberg: the sorted p-value of rank [k] is scaled by
    [ntests / k], then the running minimum from the right is taken. *)
Definition fdr_bh (pvals : list Q) (alpha : Q) : list bool * list Q :=
  let ntests := inject_Z (Z.of_nat (List.length pvals)) in
  let sorted := argsort pvals in
  let sortind := map fst sorted in
  let ranked := combine (seq 1 (List.length sorted)) (map snd sorted) in
  let ecdffactor (k : nat) := (inject_Z (Z.of_nat k) / ntests)%Q in
  let reject :=
    any_right (map (fun kp => Qle_bool (snd kp) (ecdffactor (fst kp) * alpha))
                   ranked) in
  let corrected_raw := map (fun kp => (snd kp / ecdffactor (fst kp))%Q) ranked in
  let corrected := map clip1 (cummin_right corrected_raw) in
  (unsort sortind reject false, unsort sortind corrected 0%Q).

(** [multipletests(pvals, alpha, method)], as [(reject, pvals_corrected)]. *)
Definition multipletests (pvals : list Q) (alpha : Q) (method : string)
    : list bool * list Q :=
  if String.eqb method "bonferroni" then bonferroni pvals alpha
  else fdr_bh pvals alpha.

(** [multipleTestingCorrection]: adds the sub-dictionary ['corr'] to the
    result table in place.  The messages it prints are not modelled. *)
Definition multipleTestingCorrection (testType : string) (threshold : Q)
    : M unit :=
  pValues <- (d <- getitem "pValues" ;; ret (Dict.values d)) ;;
  terms <- (d <- getitem "pValues" ;; ret (Dict.keys d)) ;;
  let corr :=
    if String.eqb testType "bonferroni" then
      multipletests pValues threshold "bonferroni"
    else
      multipletests pValues threshold "fdr_bh" in
  setsub "corr" (Dict.of_items (combine terms (snd corr))).

(** ** What a store holds *)

(** [enrichmentTestResults[sub][k]] when both keys are present. *)
Definition entry (s : store) (sub : string) (k : term) : option Q :=
  match Dict.get (table s) sub with
  | Some d => Dict.get d k
  | None => None
  end.

(** The term has a p-value in the result table. *)
Definition recorded (s : store) (k : term) : Prop :=
  entry s "pValues" k <> None.

(** The three sub-dictionaries the tester writes to are there. *)
Definition table_ok (s : store) : Prop :=
  Dict.get (table s) "pValues" <> None /\
  Dict.get (table s) "interestCount" <> None /\
  Dict.get (table s) "backgroundCount" <> None.

(** The background count of a term is below [minGenes]. *)
Definition low_count (GOdict : Dict.t GOterm) (gafDict : Dict.t (list term))
    (minGenes : Z) (k : term) : Prop :=
  exists t, Dict.get GOdict k = Some t /\
            countGOassociations (k :: recursive_children t) gafDict < minGenes.

(** A run whose recursion exceeds every depth. *)
Definition unbounded_recursion {A : Type} (run : nat -> result A * store)
    : Prop :=
  forall fuel, fst (run fuel) = OutOfFuel.

(** The three assignments by which [recursiveTester] records a test. *)
Definition record_result (GOid : term) (pVal subsetGO backgroundGO : Q)
    : M unit :=
  setitem "pValues" GOid pVal ;;
  setitem "interestCount" GOid subsetGO ;;
  setitem "backgroundCount" GOid backgroundGO.

(** The background count of a known term reaches [minGenes]. *)
Definition testable (GOdict : Dict.t GOterm) (gafDict : Dict.t (list term))
    (minGenes : Z) (k : term) : Prop :=
  exists t, Dict.get GOdict k = Some t /\
            ~ countGOassociations (k :: recursive_children t) gafDict < minGenes.

(** [s'] is [s] after the item assignments [new], each on a term that
    satisfies [P], had no p-value in [s] and has one in [s']; nothing else
    has changed. *)
Record extends (P : term -> Prop) (s : store) (new : list (string * term))
    (s' : store) : Prop := mkExtends {
  ext_assigned : assigned s' = assigned s ++ new;
  ext_nodup : NoDup new;
  ext_new : forall sub k, In (sub, k) new ->
              P k /\ ~ recorded s k /\ recorded s' k /\
              In ("pValues", k) new;
  ext_frame : forall sub k, (forall sub', ~ In (sub', k) new) ->
              entry s' sub k = entry s sub k;
  ext_recorded : forall k, recorded s k -> recorded s' k;
  ext_subs : forall sub,
              Dict.get (table s') sub = None <-> Dict.get (table s) sub = None
}.

(** The recursive parents of the terms of [ids], those of unknown terms
    apart. *)
Definition known_ancestors (GOdict : Dict.t GOterm) (ids : list term)
    : list term :=
  flat_map (fun GOid =>
              match Dict.get GOdict GOid with
              | Some t => recursive_parents t
              | None => []
              end) ids.

(** The terms of the subset that are a recursive parent of no term of the
    subset. *)
Definition base_terms (GOdict : Dict.t GOterm) (gafSubset : Dict.t (list term))
    : list term :=
  let ids := subsetGOids gafSubset in
  filter (fun GOid => negb (mem_str GOid (dedup (known_ancestors GOdict ids))))
         ids.

(** [testable] and [recorded] as tests. *)
Definition testableb (GOdict : Dict.t GOterm) (gafDict : Dict.t (list term))
    (minGenes : Z) (k : term) : bool :=
  match Dict.get GOdict k with
  | Some t =>
      negb (countGOassociations (k :: recursive_children t) gafDict <? minGenes)
  | None => false
  end.

Definition recordedb (s : store) (k : term) : bool :=
  match Dict.get (table s) "pValues" with
  | Some d => Dict.mem d k
  | None => false
  end.

(** The number of testable terms of the hierarchy that have no p-value yet. *)
Definition untested (GOdict : Dict.t GOterm) (gafDict : Dict.t (list term))
    (minGenes : Z) (s : store) : nat :=
  List.length
    (filter (fun k => testableb GOdict gafDict minGenes k && negb (recordedb s k))
            (Dict.keys GOdict)).

(** A recursion depth that suffices on a hierarchy whose low-count terms are
    ranked by [rank]. *)
Definition depth_bound (GOdict : Dict.t GOterm) (rank : term -> nat) : nat :=
  (S (List.length GOdict) * (list_max (map rank (Dict.keys GOdict)) + 3))%nat.

(** Every sub-dictionary of the table satisfies the representation
    invariant. *)
Definition subdicts_wf (s : store) : Prop :=
  forall sub d, Dict.get (table s) sub = Some d -> Dict.wf d.

(** Equality of assignment records is decidable. *)
Definition event_eq_dec (x y : string * term) : {x = y} + {x <> y}.
Proof. decide equality; apply string_dec. Defined.

(** ** Sample data *)

(** A diamond: the base terms [A] and [B] have the parents [P1] and [P2],
    which share the parent [G]. *)
Definition diamond : Dict.t GOterm :=
  [("A", mkGOterm "a" "ns" ["P1"] [] ["P1"; "G"] []);
   ("B", mkGOterm "b" "ns" ["P2"] [] ["P2"; "G"] []);
   ("P1", mkGOterm "p1" "ns" ["G"] ["A"] ["G"] ["A"]);
   ("P2", mkGOterm "p2" "ns" ["G"] ["B"] ["G"] ["B"]);
   ("G", mkGOterm "g" "ns" [] ["P1"; "P2"] [] ["P1"; "P2"; "A"; "B"])].

Definition diamond_background : Dict.t (list term) :=
  [("g1", ["A"]); ("g2", ["B"]); ("g3", ["A"]); ("g4", ["B"]); ("g5", []);
   ("g6", []); ("g7", []); ("g8", []); ("g9", []); ("g10", [])].

Definition diamond_subset : Dict.t (list term) :=
  [("g1", ["A"]); ("g2", ["B"])].

(** A chain: the term [T] below [root]; four of ten background genes carry
    [T], a fifth carries [root]; two of the three subset genes carry [T]. *)
Definition chain : Dict.t GOterm :=
  [("T", mkGOterm "t" "ns" ["root"] [] ["root"] []);
   ("root", mkGOterm "r" "ns" [] ["T"] [] ["T"])].

Definition chain_background : Dict.t (list term) :=
  [("g1", ["T"]); ("g2", ["T"]); ("g3", ["T"]); ("g4", ["T"]); ("g5", []);
   ("g6", []); ("g7", []); ("g8", ["root"]); ("g9", []); ("g10", [])].

Definition chain_subset : Dict.t (list term) :=
  [("g1", ["T"]); ("g2", ["T"]); ("g5", [])].

(** A malformed hierarchy: [A] and [B] are each other's parent. *)
Definition cycle : Dict.t GOterm :=
  [("A", mkGOterm "a" "ns" ["B"] ["B"] ["B"; "A"] ["B"; "A"]);
   ("B", mkGOterm "b" "ns" ["A"] ["A"] ["A"; "B"] ["A"; "B"])].

(** The two-term cycle with genes: both terms reach [minGenes = 1]. *)
Definition cycle_background : Dict.t (list term) :=
  [("g1", ["A"]); ("g2", ["A"]); ("g3", ["B"])].

(** The height of the terms of [chain] above the root. *)
Definition chain_rank (k : term) : nat :=
  if String.eqb k "T" then 1%nat else 0%nat.

(** A result table as an analysis of the chain leaves it. *)
Definition sample_results : store :=
  {| table := [("pValues", [("T", 1 # 3); ("root", 1 # 2)]);
               ("interestCount", [("T", 2 # 1); ("root", 2 # 1)]);
               ("backgroundCount", [("T", 4 # 1); ("root", 5 # 1)])];
     assigned := [] |}.

(** The method [multipleTestingCorrection] hands to [multipletests]. *)
Definition method_of (testType : string) : string :=
  if String.eqb testType "bonferroni" then "bonferroni" else "fdr_bh".

(** The gene of an entry of an association map carries one of [validTerms]:
    the test [countGOassociations] makes for each gene. *)
Definition associated (validTerms : list term) (item : string * list term)
    : bool :=
  negb (isdisjoint validTerms (snd item)).

(** A background of three genes and a subset map made of two of its
    entries. *)
Definition small_background : Dict.t (list term) :=
  [("g1", ["T"]); ("g2", ["root"]); ("g3", [])].

Definition small_subset : Dict.t (list term) :=
  [("g1", ["T"]); ("g3", [])].

(** [P(X >= k)] as the docstring of [enrichmentOneSided] reads it: the masses
    of [k .. N] added up. *)
Definition hypergeom_tail (k M n N : Z) : Q :=
  fold_left (fun acc j => (acc + hypergeom_pmf (Z.of_nat j) M n N)%Q)
            (seq (Z.to_nat k) (S (Z.to_nat N) - Z.to_nat k)) 0%Q.

(** The sum of [g] over the numbers of [l]. *)
Definition zsum (g : nat -> Z) (l : list nat) : Z :=
  fold_right (fun j z => g j + z) 0 l.

(** The numerator of the mass of [j]. *)
Definition mass_num (M n N : Z) (j : nat) : Z :=
  comb n (Z.of_nat j) * comb (M - n) (N - Z.of_nat j).

(** The entries of a recorded term are the ones its own counts give. *)
Definition entries_of (backgroundTotal subsetTotal : Z) (GOdict : Dict.t GOterm)
    (gafDict gafSubset : Dict.t (list term)) (minGenes : Z) (s : store)
    (k : term) : Prop :=
  exists t,
    Dict.get GOdict k = Some t /\
    let validTerms := k :: recursive_children t in
    let backgroundGO := countGOassociations validTerms gafDict in
    let subsetGO := countGOassociations validTerms gafSubset in
    ~ backgroundGO < minGenes /\
    entry s "pValues" k =
      Some (enrichmentOneSided subsetGO backgroundTotal backgroundGO
                               subsetTotal) /\
    entry s "interestCount" k = Some (inject_Z subsetGO) /\
    entry s "backgroundCount" k = Some (inject_Z backgroundGO).

(** The three sub-dictionaries hold the same keys in the same order. *)
Definition aligned (s : store) : Prop :=
  exists pValues interestCount backgroundCount,
    Dict.get (table s) "pValues" = Some pValues /\
    Dict.get (table s) "interestCount" = Some interestCount /\
    Dict.get (table s) "backgroundCount" = Some backgroundCount /\
    Dict.keys interestCount = Dict.keys pValues /\
    Dict.keys backgroundCount = Dict.keys pValues.


(** A subset map with a gene that carries a term the chain does not know. *)
Definition stray_subset : Dict.t (list term) :=
  [("g1", ["T"]); ("g2", ["X"])].

(** ** The terms a run visits *)

Section Reach.

Variables backgroundTotal subsetTotal : Z.
Variable GOdict : Dict.t GOterm.
Variables gafDict gafSubset : Dict.t (list term).
Variable minGenes : Z.
Variable threshold : Q.

(** A call on the unrecorded term [k] goes on to the parents of [k]: the
    background count of [k] is too low, or its p-value is above the
    threshold. *)
Definition propagates (k : term) (t : GOterm) : bool :=
  let validTerms := k :: recursive_children t in
  let backgroundGO := countGOassociations validTerms gafDict in
  let subsetGO := countGOassociations validTerms gafSubset in
  if backgroundGO <? minGenes then true
  else Qgtb (enrichmentOneSided subsetGO backgroundTotal backgroundGO
                                subsetTotal) threshold.

(** The terms reached from [roots] along parent edges out of terms that
    propagate. *)
Inductive visited (roots : list term) : term -> Prop :=
| visited_root k : In k roots -> visited roots k
| visited_parent k t p :
    visited roots k -> Dict.get GOdict k = Some t ->
    propagates k t = true -> In p (parents t) -> visited roots p.

(** The term needs no further call in the store [s]: it has a p-value, or
    its background count is too low and its parents need no further call. *)
Inductive settled (s : store) : term -> Prop :=
| settled_recorded k : recorded s k -> settled s k
| settled_low k t :
    Dict.get GOdict k = Some t ->
    countGOassociations (k :: recursive_children t) gafDict < minGenes ->
    (forall p, In p (parents t) -> settled s p) ->
    settled s k.

(** The parents of every recorded term that propagates are settled, the terms
    of [X], which are still being worked on, apart. *)
Definition closed_except (X : list term) (s : store) : Prop :=
  forall k t,
    recorded s k -> ~ In k X -> Dict.get GOdict k = Some t ->
    propagates k t = true ->
    forall p, In p (parents t) -> settled s p.

End Reach.

(** * Properties *)

(** ** Dictionaries *)

Module DictFacts.

Lemma get_set_same {V : Type} (d : Dict.t V) k v :
  Dict.get (Dict.set d k v) k = Some v.
Proof.
  induction d as [|[k' v'] d IH]; simpl.
  - now rewrite String.eqb_refl.
  - destruct (String.eqb k' k) eqn:E; simpl; rewrite E; auto.
Qed.

Lemma get_set_other {V : Type} (d : Dict.t V) k k' v :
  k <> k' -> Dict.get (Dict.set d k v) k' = Dict.get d k'.
Proof.
  intros Hne. induction d as [|[k0 v0] d IH]; simpl.
  - destruct (String.eqb_spec k k'); congruence.
  - destruct (String.eqb_spec k0 k) as [->|Hk]; simpl.
    + destruct (String.eqb_spec k k'); congruence.
    + now rewrite IH.
Qed.

Lemma get_none_iff {V : Type} (d : Dict.t V) k :
  Dict.get d k = None <-> ~ In k (Dict.keys d).
Proof.
  induction d as [|[k' v'] d IH]; simpl.
  - tauto.
  - destruct (String.eqb_spec k' k) as [->|Hk].
    + split; [discriminate | tauto].
    + rewrite IH. tauto.
Qed.

Lemma get_some_in {V : Type} (d : Dict.t V) k :
  Dict.get d k <> None <-> In k (Dict.keys d).
Proof.
  rewrite get_none_iff. split; [|tauto].
  intros H. destruct (in_dec string_dec k (Dict.keys d)); tauto.
Qed.

Lemma mem_true_iff {V : Type} (d : Dict.t V) k :
  Dict.mem d k = true <-> Dict.get d k <> None.
Proof.
  unfold Dict.mem. destruct (Dict.get d k); split; congruence.
Qed.

Lemma keys_set_old {V : Type} (d : Dict.t V) k v :
  Dict.get d k <> None -> Dict.keys (Dict.set d k v) = Dict.keys d.
Proof.
  induction d as [|[k' v'] d IH]; simpl; intros H.
  - congruence.
  - destruct (String.eqb k' k) eqn:E; simpl; [reflexivity|].
    f_equal. now apply IH.
Qed.

Lemma keys_set_new {V : Type} (d : Dict.t V) k v :
  Dict.get d k = None -> Dict.keys (Dict.set d k v) = Dict.keys d ++ [k].
Proof.
  induction d as [|[k' v'] d IH]; simpl; intros H.
  - reflexivity.
  - destruct (String.eqb k' k) eqn:E; [discriminate|]. simpl.
    f_equal. now apply IH.
Qed.

Lemma set_new {V : Type} (d : Dict.t V) k v :
  Dict.get d k = None -> Dict.set d k v = d ++ [(k, v)].
Proof.
  induction d as [|[k' v'] d IH]; simpl; intros H.
  - reflexivity.
  - destruct (String.eqb k' k) eqn:E; [discriminate|].
    f_equal. now apply IH.
Qed.

Lemma wf_set {V : Type} (d : Dict.t V) k v :
  Dict.wf d -> Dict.wf (Dict.set d k v).
Proof.
  unfold Dict.wf. intros H.
  destruct (Dict.get d k) eqn:E.
  - rewrite keys_set_old; congruence.
  - rewrite keys_set_new by assumption.
    apply get_none_iff in E.
    apply NoDup_app; auto.
    + constructor; [intros []|constructor].
    + intros x Hx [<-|[]]. contradiction.
Qed.

End DictFacts.

(** ** Stores *)

Lemma getitem_eq sub s :
  getitem sub s =
  match Dict.get (table s) sub with
  | Some d => (Ok d, s)
  | None => (Raised (KeyError sub), s)
  end.
Proof. reflexivity. Qed.

Lemma setitem_eq sub k v s :
  setitem sub k v s =
  match Dict.get (table s) sub with
  | Some d =>
      (Ok tt, {| table := Dict.set (table s) sub (Dict.set d k v);
                 assigned := assigned s ++ [(sub, k)] |})
  | None => (Raised (KeyError sub), s)
  end.
Proof.
  unfold setitem, bind. rewrite getitem_eq.
  destruct (Dict.get (table s) sub); reflexivity.
Qed.

Lemma entry_set_table tbl a a' sub d k sub' k' v :
  Dict.get tbl sub = Some d ->
  entry {| table := Dict.set tbl sub (Dict.set d k v); assigned := a |} sub' k' =
  if (String.eqb sub sub' && String.eqb k k')%bool then Some v
  else entry {| table := tbl; assigned := a' |} sub' k'.
Proof.
  intros Hd. unfold entry; simpl.
  destruct (String.eqb_spec sub sub') as [<-|Hs]; simpl.
  - rewrite DictFacts.get_set_same, Hd.
    destruct (String.eqb_spec k k') as [<-|Hk].
    + apply DictFacts.get_set_same.
    + now apply DictFacts.get_set_other.
  - now rewrite DictFacts.get_set_other.
Qed.

Lemma setitem_ok sub k v s d :
  Dict.get (table s) sub = Some d ->
  exists s',
    setitem sub k v s = (Ok tt, s') /\
    assigned s' = assigned s ++ [(sub, k)] /\
    (forall sub' k', entry s' sub' k' =
       if (String.eqb sub sub' && String.eqb k k')%bool then Some v
       else entry s sub' k') /\
    (forall sub', Dict.get (table s') sub' = None <->
                  Dict.get (table s) sub' = None).
Proof.
  intros Hd. rewrite setitem_eq, Hd. eexists. split; [reflexivity|].
  split; [reflexivity|]. split.
  - intros sub' k'. destruct s as [tbl a]. simpl in *.
    now apply entry_set_table.
  - intros sub'. simpl.
    destruct (String.eqb_spec sub sub') as [<-|Hs].
    + rewrite DictFacts.get_set_same, Hd. split; discriminate.
    + now rewrite DictFacts.get_set_other.
Qed.

Lemma setitem_raise sub k v s :
  Dict.get (table s) sub = None ->
  setitem sub k v s = (Raised (KeyError sub), s).
Proof. intros H. now rewrite setitem_eq, H. Qed.

Lemma recorded_iff s k :
  recorded s k <->
  exists d, Dict.get (table s) "pValues" = Some d /\ Dict.mem d k = true.
Proof.
  unfold recorded, entry. split.
  - destruct (Dict.get (table s) "pValues") as [d|]; [|congruence].
    intros H. exists d. split; [reflexivity|].
    now apply DictFacts.mem_true_iff.
  - intros (d & -> & H). now apply DictFacts.mem_true_iff.
Qed.

(** ** The extension order on stores *)

Lemma extends_refl P s : extends P s [] s.
Proof.
  constructor; try tauto.
  - now rewrite app_nil_r.
  - constructor.
  - intros ? ? [].
Qed.

Lemma extends_trans P s n1 s1 n2 s2 :
  extends P s n1 s1 -> extends P s1 n2 s2 -> extends P s (n1 ++ n2) s2.
Proof.
  intros H1 H2. constructor.
  - rewrite (ext_assigned _ _ _ _ H2), (ext_assigned _ _ _ _ H1).
    now rewrite app_assoc.
  - apply NoDup_app; try apply H1; try apply H2.
    intros [sub k] Hin1 Hin2.
    apply (ext_new _ _ _ _ H1) in Hin1. apply (ext_new _ _ _ _ H2) in Hin2.
    tauto.
  - intros sub k Hin. apply in_app_or in Hin. destruct Hin as [Hin|Hin].
    + apply (ext_new _ _ _ _ H1) in Hin. destruct Hin as (HP & Hn & Hr & Hp).
      repeat split; auto.
      * now apply (ext_recorded _ _ _ _ H2).
      * apply in_or_app. now left.
    + apply (ext_new _ _ _ _ H2) in Hin. destruct Hin as (HP & Hn & Hr & Hp).
      repeat split; auto.
      * intros Hs. apply Hn. now apply (ext_recorded _ _ _ _ H1).
      * apply in_or_app. now right.
  - intros sub k Hk.
    rewrite (ext_frame _ _ _ _ H2), (ext_frame _ _ _ _ H1); auto.
    + intros sub' Hin. apply (Hk sub'). apply in_or_app. now left.
    + intros sub' Hin. apply (Hk sub'). apply in_or_app. now right.
  - intros k Hk. apply (ext_recorded _ _ _ _ H2).
    now apply (ext_recorded _ _ _ _ H1).
  - intros sub. rewrite (ext_subs _ _ _ _ H2). apply (ext_subs _ _ _ _ H1).
Qed.

Lemma extends_table_ok P s new s' :
  extends P s new s' -> table_ok s -> table_ok s'.
Proof.
  intros H (H1 & H2 & H3). unfold table_ok.
  rewrite !(ext_subs _ _ _ _ H). auto.
Qed.

Lemma for_each_extends {A : Type} P (body : A -> M unit) :
  (forall x s, exists new, extends P s new (snd (body x s))) ->
  forall l s, exists new, extends P s new (snd (for_each l body s)).
Proof.
  intros Hbody l. induction l as [|x l IH]; intros s; simpl.
  - exists []. apply extends_refl.
  - unfold bind. destruct (Hbody x s) as [n1 H1].
    destruct (body x s) as [[[]| e |] s1]; simpl in H1.
    + destruct (IH s1) as [n2 H2]. exists (n1 ++ n2).
      eapply extends_trans; eauto.
    + now exists n1.
    + now exists n1.
Qed.

(** ** Recording a test *)

Lemma extends_block P s k subs s' :
  P k -> ~ recorded s k -> recorded s' k ->
  NoDup subs -> In "pValues" subs ->
  assigned s' = assigned s ++ map (fun sub => (sub, k)) subs ->
  (forall sub k', k' <> k -> entry s' sub k' = entry s sub k') ->
  (forall sub, Dict.get (table s') sub = None <->
               Dict.get (table s) sub = None) ->
  extends P s (map (fun sub => (sub, k)) subs) s'.
Proof.
  intros HP Hn Hr Hnd Hin Ha Hf Hs. constructor; auto.
  - apply Finite.Injective_map_NoDup; auto.
    intros x y Hxy. congruence.
  - intros sub k0 H0. apply in_map_iff in H0.
    destruct H0 as (x & Hx & _). inversion Hx; subst.
    repeat split; auto. apply in_map_iff. now exists "pValues".
  - intros sub k0 H0. apply Hf. intros ->.
    apply (H0 "pValues"). apply in_map_iff. now exists "pValues".
  - intros k0 H0. unfold recorded. rewrite Hf; auto.
    intros ->. contradiction.
Qed.

Lemma record_result_ok s k p a b :
  table_ok s ->
  exists s1,
    record_result k p a b s = (Ok tt, s1) /\
    assigned s1 =
      assigned s ++ [("pValues", k); ("interestCount", k); ("backgroundCount", k)] /\
    (forall sub k', k' <> k -> entry s1 sub k' = entry s sub k') /\
    entry s1 "pValues" k = Some p /\
    entry s1 "interestCount" k = Some a /\
    entry s1 "backgroundCount" k = Some b /\
    (forall sub, Dict.get (table s1) sub = None <->
                 Dict.get (table s) sub = None).
Proof.
  intros (H1 & H2 & H3). unfold record_result, bind.
  destruct (Dict.get (table s) "pValues") as [d1|] eqn:E1; [|congruence].
  destruct (setitem_ok "pValues" k p s d1 E1) as (s1 & -> & A1 & F1 & S1).
  rewrite <- S1 in H2, H3.
  destruct (Dict.get (table s1) "interestCount") as [d2|] eqn:E2; [|congruence].
  destruct (setitem_ok "interestCount" k a s1 d2 E2) as (s2 & -> & A2 & F2 & S2).
  rewrite <- S2 in H3.
  destruct (Dict.get (table s2) "backgroundCount") as [d3|] eqn:E3; [|congruence].
  destruct (setitem_ok "backgroundCount" k b s2 d3 E3) as (s3 & -> & A3 & F3 & S3).
  exists s3. split; [reflexivity|]. split.
  { rewrite A3, A2, A1, <- !app_assoc. reflexivity. }
  split.
  { intros sub k' Hk. rewrite F3, F2, F1.
    destruct (String.eqb_spec k k'); [congruence|].
    now rewrite !andb_false_r. }
  split. { rewrite F3, F2, F1. simpl. now rewrite String.eqb_refl. }
  split. { rewrite F3, F2. simpl. now rewrite String.eqb_refl. }
  split. { rewrite F3. simpl. now rewrite String.eqb_refl. }
  intros sub. rewrite S3, S2, S1. tauto.
Qed.

Lemma record_result_extends P s k p a b :
  Dict.get (table s) "pValues" <> None -> ~ recorded s k -> P k ->
  exists new,
    extends P s new (snd (record_result k p a b s)) /\
    recorded (snd (record_result k p a b s)) k.
Proof.
  intros H1 Hn HP. unfold record_result, bind.
  destruct (Dict.get (table s) "pValues") as [d1|] eqn:E1; [|congruence].
  destruct (setitem_ok "pValues" k p s d1 E1) as (s1 & -> & A1 & F1 & S1).
  assert (R1 : recorded s1 k).
  { unfold recorded. rewrite F1. simpl. rewrite String.eqb_refl. discriminate. }
  destruct (Dict.get (table s1) "interestCount") as [d2|] eqn:E2.
  2:{ rewrite (setitem_raise _ _ _ _ E2). simpl.
      exists (map (fun sub => (sub, k)) ["pValues"]). split; [|assumption].
      apply extends_block; auto.
      - repeat constructor. intros [].
      - now left.
      - intros sub k' Hk. rewrite F1.
        destruct (String.eqb_spec k k'); [congruence|].
        now rewrite andb_false_r. }
  destruct (setitem_ok "interestCount" k a s1 d2 E2) as (s2 & -> & A2 & F2 & S2).
  assert (R2 : recorded s2 k).
  { unfold recorded. rewrite F2. simpl. exact R1. }
  destruct (Dict.get (table s2) "backgroundCount") as [d3|] eqn:E3.
  2:{ rewrite (setitem_raise _ _ _ _ E3). simpl.
      exists (map (fun sub => (sub, k)) ["pValues"; "interestCount"]).
      split; [|assumption].
      apply extends_block; auto.
      - repeat constructor; simpl; intuition discriminate.
      - now left.
      - rewrite A2, A1, <- app_assoc. reflexivity.
      - intros sub k' Hk. rewrite F2, F1.
        destruct (String.eqb_spec k k'); [congruence|].
        now rewrite !andb_false_r.
      - intros sub. rewrite S2, S1. tauto. }
  destruct (setitem_ok "backgroundCount" k b s2 d3 E3) as (s3 & -> & A3 & F3 & S3).
  simpl.
  exists (map (fun sub => (sub, k)) ["pValues"; "interestCount"; "backgroundCount"]).
  assert (R3 : recorded s3 k).
  { unfold recorded. rewrite F3. simpl. exact R2. }
  split; [|assumption].
  apply extends_block; auto.
  - repeat constructor; simpl; intuition discriminate.
  - now left.
  - rewrite A3, A2, A1, <- !app_assoc. reflexivity.
  - intros sub k' Hk. rewrite F3, F2, F1.
    destruct (String.eqb_spec k k'); [congruence|].
    now rewrite !andb_false_r.
  - intros sub. rewrite S3, S2, S1. tauto.
Qed.

(** ** The recursive tester *)

Lemma Qgtb_true_iff (a b : Q) : Qgtb a b = true <-> (b < a)%Q.
Proof.
  unfold Qgtb. rewrite negb_true_iff, <- not_true_iff_false, Qle_bool_iff.
  split; [apply Qnot_le_lt | apply Qlt_not_le].
Qed.

Lemma Qgtb_false_iff (a b : Q) : Qgtb a b = false <-> (a <= b)%Q.
Proof.
  unfold Qgtb. rewrite negb_false_iff. apply Qle_bool_iff.
Qed.

Section TesterFacts.

Variables backgroundTotal subsetTotal : Z.
Variable GOdict : Dict.t GOterm.
Variables gafDict gafSubset : Dict.t (list term).
Variable minGenes : Z.
Variable threshold : Q.

Let tester : nat -> term -> M unit :=
  recursiveTester backgroundTotal subsetTotal GOdict gafDict gafSubset
                  minGenes threshold.

(** One step of the tester, by cases as the source branches. *)
Lemma recursiveTester_step fuel GOid s :
  tester (S fuel) GOid s =
  match Dict.get (table s) "pValues" with
  | None => (Raised (KeyError "pValues"), s)
  | Some pValues =>
      if Dict.mem pValues GOid then (Ok tt, s)
      else
        match Dict.get GOdict GOid with
        | None => (Raised (KeyError GOid), s)
        | Some t =>
            let validTerms := GOid :: recursive_children t in
            let backgroundGO := countGOassociations validTerms gafDict in
            let subsetGO := countGOassociations validTerms gafSubset in
            let pVal :=
              enrichmentOneSided subsetGO backgroundTotal backgroundGO
                                 subsetTotal in
            if backgroundGO <? minGenes then
              for_each (parents t) (tester fuel) s
            else
              bind (record_result GOid pVal (inject_Z subsetGO)
                                  (inject_Z backgroundGO))
                   (fun _ =>
                      if Qgtb pVal threshold then
                        for_each (parents t) (tester fuel)
                      else ret tt) s
        end
  end.
Proof.
  unfold tester at 1. simpl. unfold bind at 1. rewrite getitem_eq.
  destruct (Dict.get (table s) "pValues") as [pValues|]; [|reflexivity].
  destruct (Dict.mem pValues GOid); simpl; [reflexivity|].
  unfold bind at 1, lookup_term.
  destruct (Dict.get GOdict GOid) as [t|]; [|reflexivity].
  unfold ret at 1. cbv zeta.
  destruct (_ <? minGenes); [reflexivity|].
  unfold record_result, bind.
  destruct (setitem "pValues" GOid _ s) as [[[]| e |] s1]; try reflexivity.
  destruct (setitem "interestCount" GOid _ s1) as [[[]| e |] s2];
    reflexivity.
Qed.

(** Every call only extends the store, and only by tests of testable terms. *)
Lemma recursiveTester_extends fuel :
  forall GOid s,
    exists new,
      extends (testable GOdict gafDict minGenes) s new
              (snd (tester fuel GOid s)).
Proof.
  induction fuel as [|fuel IH]; intros GOid s.
  - exists []. apply extends_refl.
  - rewrite recursiveTester_step.
    destruct (Dict.get (table s) "pValues") as [pValues|] eqn:Epv;
      [|exists []; apply extends_refl].
    destruct (Dict.mem pValues GOid) eqn:Emem;
      [exists []; apply extends_refl|].
    destruct (Dict.get GOdict GOid) as [t|] eqn:Et;
      [|exists []; apply extends_refl].
    cbv zeta.
    destruct (Z.ltb_spec (countGOassociations (GOid :: recursive_children t) gafDict)
                         minGenes) as [Hlow|Hok].
    + apply for_each_extends. intros x s0. apply IH.
    + set (pVal := enrichmentOneSided _ _ _ _).
      set (sg := inject_Z _). set (bg := inject_Z _).
      assert (Hnr : ~ recorded s GOid).
      { rewrite recorded_iff. intros (d & Hd & Hm). congruence. }
      assert (Hpv : Dict.get (table s) "pValues" <> None) by congruence.
      assert (HP : testable GOdict gafDict minGenes GOid).
      { exists t. split; [assumption|lia]. }
      destruct (record_result_extends _ s GOid pVal sg bg Hpv Hnr HP)
        as (n1 & H1 & _).
      unfold bind.
      destruct (record_result GOid pVal sg bg s) as [[[]| e |] s1];
        simpl in H1; try (now exists n1).
      destruct (Qgtb pVal threshold).
      * destruct (for_each_extends (testable GOdict gafDict minGenes)
                    (tester fuel) (fun x s0 => IH x s0) (parents t) s1)
          as [n2 H2].
        exists (n1 ++ n2). eapply extends_trans; eauto.
      * now exists n1.
Qed.

End TesterFacts.

(** ** Memoization *)

Lemma ancestors_of_store GOdict ids s :
  snd (ancestors_of GOdict ids s) = s.
Proof.
  induction ids as [|GOid ids IH]; simpl; [reflexivity|].
  unfold bind, lookup_term.
  destruct (Dict.get GOdict GOid) as [t|]; [|reflexivity].
  unfold ret at 1. destruct (ancestors_of GOdict ids s) as [[a| e |] s1];
    simpl in *; congruence.
Qed.

(** Base-term selection leaves the result table alone. *)
Lemma baseGOids_store GOdict gafSubset s :
  snd (baseGOids GOdict gafSubset s) = s.
Proof.
  unfold baseGOids, subsetGOidsParents, bind.
  pose proof (ancestors_of_store GOdict (subsetGOids gafSubset) s) as H.
  destruct (ancestors_of GOdict (subsetGOids gafSubset) s) as [[a| e |] s1];
    simpl in *; congruence.
Qed.


Lemma in_events_dec (new : list (string * term)) (k : term) :
  (exists sub, In (sub, k) new) \/ (forall sub, ~ In (sub, k) new).
Proof.
  induction new as [|[sub0 k0] new IH].
  - right. intros sub [].
  - destruct (string_dec k0 k) as [->|Hk].
    + left. exists sub0. now left.
    + destruct IH as [[sub H]|H].
      * left. exists sub. now right.
      * right. intros sub [E|Hin]; [congruence|]. now apply (H sub).
Qed.

Lemma extends_new_results P new s' :
  extends P new_results new s' ->
  NoDup (assigned s') /\
  forall k, recorded s' k ->
            count_occ event_eq_dec (assigned s') ("pValues", k) = 1%nat.
Proof.
  intros H. rewrite (ext_assigned _ _ _ _ H). simpl. split.
  - apply H.
  - intros k Hk.
    apply NoDup_count_occ'; [apply H|].
    destruct (in_events_dec new k) as [[sub Hin]|Hout].
    + now apply (ext_new _ _ _ _ H) in Hin.
    + exfalso. apply Hk. unfold recorded.
      rewrite (ext_frame _ _ _ _ H) by assumption. reflexivity.
Qed.

(** C1.  A call of [recursiveTester] on a term that already has a p-value in
    the result table changes nothing and returns at once, whatever the depth
    budget and the hierarchy; no call ever changes an entry of a term that
    already has a p-value; in a run that starts from the empty table,
    whatever the base terms and their order, no entry is assigned twice and
    the p-value of every recorded term is assigned exactly once; and in a run
    of the analysis no entry is assigned twice. *)
Theorem recursiveTester_memoized :
  forall (backgroundTotal subsetTotal : Z) (GOdict : Dict.t GOterm)
         (gafDict gafSubset : Dict.t (list term)) (minGenes : Z)
         (threshold : Q),
    (forall fuel GOid s,
        recorded s GOid ->
        recursiveTester backgroundTotal subsetTotal GOdict gafDict gafSubset
                        minGenes threshold (S fuel) GOid s = (Ok tt, s)) /\
    (forall fuel GOid s k sub,
        recorded s k ->
        entry (snd (recursiveTester backgroundTotal subsetTotal GOdict gafDict
                                    gafSubset minGenes threshold fuel GOid s))
              sub k = entry s sub k) /\
    (forall fuel bases,
        NoDup (assigned (snd (for_each bases
                 (recursiveTester backgroundTotal subsetTotal GOdict gafDict
                                  gafSubset minGenes threshold fuel)
                 new_results))) /\
        forall k,
          recorded (snd (for_each bases
                 (recursiveTester backgroundTotal subsetTotal GOdict gafDict
                                  gafSubset minGenes threshold fuel)
                 new_results)) k ->
          count_occ event_eq_dec
            (assigned (snd (for_each bases
                 (recursiveTester backgroundTotal subsetTotal GOdict gafDict
                                  gafSubset minGenes threshold fuel)
                 new_results)))
            ("pValues", k) = 1%nat) /\
    (forall fuel,
        NoDup (assigned (snd (enrichmentAnalysis fuel GOdict gafDict gafSubset
                                                 minGenes threshold)))).
Proof.
  intros bT sT GOdict gafDict gafSubset minGenes threshold.
  split; [|split; [|split]].
  - intros fuel GOid s Hrec. rewrite recursiveTester_step.
    apply recorded_iff in Hrec. destruct Hrec as (d & -> & ->). reflexivity.
  - intros fuel GOid s k sub Hrec.
    destruct (recursiveTester_extends bT sT GOdict gafDict gafSubset minGenes
                threshold fuel GOid s) as [new H].
    apply (ext_frame _ _ _ _ H). intros sub' Hin.
    apply (ext_new _ _ _ _ H) in Hin. tauto.
  - intros fuel bases.
    destruct (for_each_extends (testable GOdict gafDict minGenes)
                (recursiveTester bT sT GOdict gafDict gafSubset minGenes
                                 threshold fuel)
                (recursiveTester_extends bT sT GOdict gafDict gafSubset
                                         minGenes threshold fuel)
                bases new_results) as [new H].
    eapply extends_new_results; eauto.
  - intros fuel. unfold enrichmentAnalysis. unfold bind at 1.
    pose proof (baseGOids_store GOdict gafSubset new_results) as Hs.
    destruct (baseGOids GOdict gafSubset new_results) as [[base| e |] s0];
      simpl in Hs; subst s0; simpl; try constructor.
    set (tester := recursiveTester (Dict.len gafDict) (Dict.len gafSubset)
                     GOdict gafDict gafSubset minGenes threshold fuel).
    destruct (for_each_extends (testable GOdict gafDict minGenes) tester
                (recursiveTester_extends _ _ GOdict gafDict gafSubset
                                         minGenes threshold fuel)
                base new_results) as [new H].
    apply extends_new_results in H. destruct H as [H _].
    unfold bind.
    destruct (for_each base tester new_results) as [[[]| e |] s1]; exact H.
Qed.

(** The diamond, run from either base term first: the shared grandparent is
    recorded and its p-value is assigned exactly once. *)
Lemma recursiveTester_memoized_diamond :
  (recorded (snd (for_each ["A"; "B"]
       (recursiveTester 10 2 diamond diamond_background diamond_subset 1
                        (1 # 100) 5) new_results)) "G" /\
   count_occ event_eq_dec
     (assigned (snd (for_each ["A"; "B"]
       (recursiveTester 10 2 diamond diamond_background diamond_subset 1
                        (1 # 100) 5) new_results)))
     ("pValues", "G") = 1%nat) /\
  (recorded (snd (for_each ["B"; "A"]
       (recursiveTester 10 2 diamond diamond_background diamond_subset 1
                        (1 # 100) 5) new_results)) "G" /\
   count_occ event_eq_dec
     (assigned (snd (for_each ["B"; "A"]
       (recursiveTester 10 2 diamond diamond_background diamond_subset 1
                        (1 # 100) 5) new_results)))
     ("pValues", "G") = 1%nat).
Proof.
  assert (HA : recorded (snd (for_each ["A"; "B"]
       (recursiveTester 10 2 diamond diamond_background diamond_subset 1
                        (1 # 100) 5) new_results)) "G")
    by (vm_compute; discriminate).
  assert (HB : recorded (snd (for_each ["B"; "A"]
       (recursiveTester 10 2 diamond diamond_background diamond_subset 1
                        (1 # 100) 5) new_results)) "G")
    by (vm_compute; discriminate).
  split; (split; [assumption|]).
  - exact (proj2 (proj1 (proj2 (proj2 (recursiveTester_memoized 10 2 diamond
             diamond_background diamond_subset 1 (1 # 100))))
                        5%nat ["A"; "B"]) "G" HA).
  - exact (proj2 (proj1 (proj2 (proj2 (recursiveTester_memoized 10 2 diamond
             diamond_background diamond_subset 1 (1 # 100))))
                        5%nat ["B"; "A"]) "G" HB).
Defined.

(** ** Propagation to the parents *)

Section Propagation.

Variables backgroundTotal subsetTotal : Z.
Variable GOdict : Dict.t GOterm.
Variables gafDict gafSubset : Dict.t (list term).
Variable minGenes : Z.
Variable threshold : Q.

Let tester : nat -> term -> M unit :=
  recursiveTester backgroundTotal subsetTotal GOdict gafDict gafSubset
                  minGenes threshold.

Lemma for_each_recorded {A : Type} (l : list A) fuel (f : A -> term) s k :
  recorded s k ->
  recorded (snd (for_each l (fun x => tester fuel (f x)) s)) k.
Proof.
  intros Hk. unfold tester.
  destruct (for_each_extends (testable GOdict gafDict minGenes)
              (fun x => recursiveTester backgroundTotal subsetTotal GOdict
                          gafDict gafSubset minGenes threshold fuel (f x))
              (fun x s0 => recursiveTester_extends backgroundTotal subsetTotal
                             GOdict gafDict gafSubset minGenes threshold fuel
                             (f x) s0) l s) as [new H].
  now apply (ext_recorded _ _ _ _ H).
Qed.

(** A call that returns normally has dealt with its term: the term has a
    p-value, or its background count is too low. *)
Lemma recursiveTester_processed fuel GOid s s' :
  tester fuel GOid s = (Ok tt, s') ->
  recorded s' GOid \/ low_count GOdict gafDict minGenes GOid.
Proof.
  destruct fuel as [|fuel]; [discriminate|].
  unfold tester. rewrite recursiveTester_step. fold tester.
  destruct (Dict.get (table s) "pValues") as [pValues|] eqn:Epv;
    [|discriminate].
  destruct (Dict.mem pValues GOid) eqn:Emem.
  { intros E. inversion E; subst. left. apply recorded_iff. eauto. }
  destruct (Dict.get GOdict GOid) as [t|] eqn:Et; [|discriminate].
  cbv zeta.
  destruct (Z.ltb_spec (countGOassociations (GOid :: recursive_children t) gafDict)
                       minGenes) as [Hlow|Hok].
  { intros _. right. exists t. auto. }
  set (pVal := enrichmentOneSided _ _ _ _).
  set (sg := inject_Z _). set (bg := inject_Z _).
  assert (Hnr : ~ recorded s GOid).
  { rewrite recorded_iff. intros (d & Hd & Hm). congruence. }
  assert (Hpv : Dict.get (table s) "pValues" <> None) by congruence.
  destruct (record_result_extends (fun _ => True) s GOid pVal sg bg Hpv Hnr I)
    as (n1 & _ & H1).
  unfold bind.
  destruct (record_result GOid pVal sg bg s) as [[[]| e |] s1];
    simpl in H1; try discriminate.
  destruct (Qgtb pVal threshold).
  - intros E. left.
    pose proof (for_each_recorded (parents t) fuel (fun x => x) s1 GOid H1) as H.
    simpl in H. change (fun x : term => tester fuel x) with (tester fuel) in H.
    now rewrite E in H.
  - intros E. inversion E; subst. now left.
Qed.

Lemma for_each_processed fuel (l : list term) :
  forall s s',
    for_each l (tester fuel) s = (Ok tt, s') ->
    forall p, In p l ->
      recorded s' p \/ low_count GOdict gafDict minGenes p.
Proof.
  induction l as [|x l IH]; intros s s' E p Hin; [contradiction|].
  simpl in E. unfold bind in E.
  destruct (tester fuel x s) as [[[]| e |] s1] eqn:Ex; try discriminate.
  destruct Hin as [<-|Hin].
  - destruct (recursiveTester_processed _ _ _ _ Ex) as [Hr|Hl]; [|now right].
    left.
    pose proof (for_each_recorded l fuel (fun x => x) s1 x Hr) as H.
    simpl in H. change (fun x : term => tester fuel x) with (tester fuel) in H.
    now rewrite E in H.
  - eapply IH; eauto.
Qed.

Lemma testable_not_low k :
  testable GOdict gafDict minGenes k ->
  low_count GOdict gafDict minGenes k -> False.
Proof.
  intros (t & Ht & H) (t' & Ht' & H'). rewrite Ht in Ht'.
  inversion Ht'; subst. contradiction.
Qed.

(** C3.  When [recursiveTester] is called on a known term that has no p-value
    yet and whose background count (over the term and its recursive
    children) is below [minGenes], the call is exactly the loop over all
    direct parents of the term run on the unchanged table; when the call is
    over the term has the same entries as before in every sub-dictionary (so
    none in ['pValues']) and no assignment was made for it; and if the call
    returned normally every direct parent has been dealt with: it has a
    p-value or its own background count is too low. *)
Theorem low_count_skipped fuel GOid t s :
  Dict.get (table s) "pValues" <> None ->
  ~ recorded s GOid ->
  Dict.get GOdict GOid = Some t ->
  countGOassociations (GOid :: recursive_children t) gafDict < minGenes ->
  tester (S fuel) GOid s = for_each (parents t) (tester fuel) s /\
  (forall sub,
      entry (snd (tester (S fuel) GOid s)) sub GOid = entry s sub GOid) /\
  (forall sub,
      count_occ event_eq_dec (assigned (snd (tester (S fuel) GOid s)))
                (sub, GOid) =
      count_occ event_eq_dec (assigned s) (sub, GOid)) /\
  (forall s',
      tester (S fuel) GOid s = (Ok tt, s') ->
      forall p, In p (parents t) ->
        recorded s' p \/ low_count GOdict gafDict minGenes p).
Proof.
  intros Hpv Hnr Ht Hlow.
  assert (Hstep : tester (S fuel) GOid s = for_each (parents t) (tester fuel) s).
  { unfold tester. rewrite recursiveTester_step.
    destruct (Dict.get (table s) "pValues") as [pValues|] eqn:Epv;
      [|congruence].
    destruct (Dict.mem pValues GOid) eqn:Emem.
    { exfalso. apply Hnr. apply recorded_iff. eauto. }
    rewrite Ht. cbv zeta.
    destruct (Z.ltb_spec (countGOassociations (GOid :: recursive_children t) gafDict)
                         minGenes); [reflexivity|lia]. }
  assert (Hout : exists new,
             extends (testable GOdict gafDict minGenes) s new
                     (snd (tester (S fuel) GOid s)) /\
             forall sub, ~ In (sub, GOid) new).
  { destruct (recursiveTester_extends backgroundTotal subsetTotal GOdict
                gafDict gafSubset minGenes threshold (S fuel) GOid s)
      as [new H].
    exists new. split; [exact H|].
    intros sub Hin. apply (ext_new _ _ _ _ H) in Hin.
    apply (testable_not_low GOid); [tauto|]. exists t. auto. }
  destruct Hout as (new & H & Hnew).
  split; [exact Hstep|]. split; [|split].
  - intros sub. now apply (ext_frame _ _ _ _ H).
  - intros sub. rewrite (ext_assigned _ _ _ _ H), count_occ_app.
    rewrite (proj1 (count_occ_not_In event_eq_dec new (sub, GOid)) (Hnew sub)).
    lia.
  - intros s' E p Hin. rewrite Hstep in E.
    eapply for_each_processed; eauto.
Qed.

(** C2.  When [recursiveTester] is called on a known term that has no p-value
    yet and whose background count reaches [minGenes], the test is recorded
    in all three sub-dictionaries, and then: if the p-value is strictly
    greater than [threshold], the rest of the call is exactly the loop over
    all direct parents, and when it returns normally every direct parent has
    a p-value or a background count that is too low; if the p-value is at
    most [threshold], the call returns at once, whatever the depth budget,
    having made the three assignments for the term and changed no entry of
    any other term. *)
Theorem stopping_policy fuel GOid t s :
  let validTerms := GOid :: recursive_children t in
  let backgroundGO := countGOassociations validTerms gafDict in
  let subsetGO := countGOassociations validTerms gafSubset in
  let pVal :=
    enrichmentOneSided subsetGO backgroundTotal backgroundGO subsetTotal in
  table_ok s ->
  ~ recorded s GOid ->
  Dict.get GOdict GOid = Some t ->
  ~ backgroundGO < minGenes ->
  exists s1,
    record_result GOid pVal (inject_Z subsetGO) (inject_Z backgroundGO) s =
      (Ok tt, s1) /\
    entry s1 "pValues" GOid = Some pVal /\
    entry s1 "interestCount" GOid = Some (inject_Z subsetGO) /\
    entry s1 "backgroundCount" GOid = Some (inject_Z backgroundGO) /\
    assigned s1 =
      assigned s ++
      [("pValues", GOid); ("interestCount", GOid); ("backgroundCount", GOid)] /\
    (forall sub k, k <> GOid -> entry s1 sub k = entry s sub k) /\
    ((threshold < pVal)%Q ->
       tester (S fuel) GOid s = for_each (parents t) (tester fuel) s1 /\
       forall s',
         tester (S fuel) GOid s = (Ok tt, s') ->
         forall p, In p (parents t) ->
           recorded s' p \/ low_count GOdict gafDict minGenes p) /\
    ((pVal <= threshold)%Q ->
       forall fuel', tester (S fuel') GOid s = (Ok tt, s1)).
Proof.
  intros validTerms backgroundGO subsetGO pVal Hok Hnr Ht Hcount.
  destruct (record_result_ok s GOid pVal (inject_Z subsetGO)
              (inject_Z backgroundGO) Hok)
    as (s1 & E1 & A1 & F1 & P1 & P2 & P3 & _).
  exists s1. repeat (split; [assumption|]).
  assert (Hstep : forall n,
             tester (S n) GOid s =
             if Qgtb pVal threshold then for_each (parents t) (tester n) s1
             else (Ok tt, s1)).
  { intros n. unfold tester. rewrite recursiveTester_step.
    destruct Hok as (Hpv & _).
    destruct (Dict.get (table s) "pValues") as [pValues|] eqn:Epv;
      [|congruence].
    destruct (Dict.mem pValues GOid) eqn:Emem.
    { exfalso. apply Hnr. apply recorded_iff. eauto. }
    rewrite Ht. cbv zeta.
    fold validTerms. fold backgroundGO. fold subsetGO. fold pVal.
    destruct (Z.ltb_spec backgroundGO minGenes); [lia|].
    unfold bind. rewrite E1.
    destruct (Qgtb pVal threshold); reflexivity. }
  split.
  - intros Hgt. apply Qgtb_true_iff in Hgt.
    assert (E : tester (S fuel) GOid s = for_each (parents t) (tester fuel) s1)
      by (rewrite Hstep, Hgt; reflexivity).
    split; [exact E|].
    intros s' E' p Hin. rewrite E in E'.
    eapply for_each_processed; eauto.
  - intros Hle fuel'. apply Qgtb_false_iff in Hle.
    rewrite Hstep, Hle. reflexivity.
Qed.

End Propagation.

(** The chain with [minGenes = 5]: [T], carried by four background genes, is
    skipped, and its parent [root] is tested. *)
Lemma low_count_skipped_chain :
  entry (snd (recursiveTester 10 3 chain chain_background chain_subset 5
                              (1 # 20) 2 "T" new_results)) "pValues" "T"
    = None /\
  exists s',
    recursiveTester 10 3 chain chain_background chain_subset 5 (1 # 20) 2 "T"
                    new_results = (Ok tt, s') /\
    (recorded s' "root" \/ low_count chain chain_background 5 "root").
Proof.
  destruct (low_count_skipped 10 3 chain chain_background chain_subset 5
              (1 # 20) 1 "T"
              (mkGOterm "t" "ns" ["root"] [] ["root"] []) new_results)
    as (Hstep & Hentry & _ & Hparents).
  - vm_compute. discriminate.
  - intros H. apply H. reflexivity.
  - reflexivity.
  - vm_compute. reflexivity.
  - split.
    + rewrite Hentry. reflexivity.
    + eexists. split; [vm_compute; reflexivity|].
      eapply Hparents; [vm_compute; reflexivity|]. now left.
Defined.

(** The chain with [minGenes = 3] and [threshold = 1/20]: [T] is recorded
    with a p-value of one third, which is not significant, so the call goes
    on with the loop over the parents of [T]. *)
Lemma stopping_policy_chain :
  exists s1,
    entry s1 "pValues" "T" = Some (enrichmentOneSided 2 10 4 3) /\
    recursiveTester 10 3 chain chain_background chain_subset 3 (1 # 20) 2 "T"
                    new_results =
    for_each ["root"]
      (recursiveTester 10 3 chain chain_background chain_subset 3 (1 # 20) 1)
      s1.
Proof.
  destruct (stopping_policy 10 3 chain chain_background chain_subset 3
              (1 # 20) 1 "T"
              (mkGOterm "t" "ns" ["root"] [] ["root"] []) new_results)
    as (s1 & _ & P1 & _ & _ & _ & _ & Hgt & _).
  - vm_compute. repeat split; discriminate.
  - intros H. apply H. reflexivity.
  - reflexivity.
  - intros H. vm_compute in H. discriminate.
  - exists s1. split; [exact P1|].
    apply Hgt. vm_compute. reflexivity.
Defined.

(** ** Termination *)

Lemma setitem_not_out_of_fuel sub k v s :
  fst (setitem sub k v s) <> OutOfFuel.
Proof.
  rewrite setitem_eq. destruct (Dict.get (table s) sub); discriminate.
Qed.

Lemma record_result_not_out_of_fuel k p a b s :
  fst (record_result k p a b s) <> OutOfFuel.
Proof.
  unfold record_result, bind.
  pose proof (setitem_not_out_of_fuel "pValues" k p s) as H1.
  destruct (setitem "pValues" k p s) as [[[]| e |] s1];
    simpl in *; try congruence.
  pose proof (setitem_not_out_of_fuel "interestCount" k a s1) as H2.
  destruct (setitem "interestCount" k a s1) as [[[]| e |] s2];
    simpl in *; try congruence.
  apply setitem_not_out_of_fuel.
Qed.

Lemma for_each_not_out_of_fuel {A : Type} (body : A -> M unit) (l : list A) :
  (forall x, In x l -> forall s, fst (body x s) <> OutOfFuel) ->
  forall s, fst (for_each l body s) <> OutOfFuel.
Proof.
  induction l as [|x l IH]; intros Hbody s; simpl; [discriminate|].
  unfold bind. pose proof (Hbody x (or_introl eq_refl) s) as Hx.
  destruct (body x s) as [[[]| e |] s1]; simpl in *; try congruence.
  apply IH. intros y Hy. apply Hbody. now right.
Qed.

Section Termination.

Variables backgroundTotal subsetTotal : Z.
Variable GOdict : Dict.t GOterm.
Variables gafDict gafSubset : Dict.t (list term).
Variable minGenes : Z.
Variable threshold : Q.

Let tester : nat -> term -> M unit :=
  recursiveTester backgroundTotal subsetTotal GOdict gafDict gafSubset
                  minGenes threshold.

(** [rank] decreases from every known term to each of its direct parents:
    the hierarchy is acyclic and [rank] bounds its depth. *)
Variable rank : term -> nat.
Hypothesis rank_parents :
  forall k t p,
    Dict.get GOdict k = Some t -> In p (parents t) -> (rank p < rank k)%nat.

Lemma recursiveTester_enough_fuel fuel :
  forall GOid s,
    (rank GOid < fuel)%nat -> fst (tester fuel GOid s) <> OutOfFuel.
Proof.
  induction fuel as [|fuel IH]; intros GOid s Hrank; [lia|].
  unfold tester. rewrite recursiveTester_step. fold tester.
  destruct (Dict.get (table s) "pValues") as [pValues|]; [|discriminate].
  destruct (Dict.mem pValues GOid); [discriminate|].
  destruct (Dict.get GOdict GOid) as [t|] eqn:Et; [|discriminate].
  cbv zeta.
  assert (Hparents : forall s0,
             fst (for_each (parents t) (tester fuel) s0) <> OutOfFuel).
  { apply for_each_not_out_of_fuel. intros p Hp s0. apply IH.
    pose proof (rank_parents GOid t p Et Hp). lia. }
  destruct (_ <? minGenes); [apply Hparents|].
  unfold bind.
  match goal with
  | |- context [record_result ?k ?p ?a ?b s] =>
      pose proof (record_result_not_out_of_fuel k p a b s) as Hrec;
      destruct (record_result k p a b s) as [[[]| e |] s1]
  end; simpl in *; try congruence.
  destruct (Qgtb _ threshold); [apply Hparents|discriminate].
Qed.

End Termination.

Section FuelMonotone.

Variables backgroundTotal subsetTotal : Z.
Variable GOdict : Dict.t GOterm.
Variables gafDict gafSubset : Dict.t (list term).
Variable minGenes : Z.
Variable threshold : Q.

Let tester : nat -> term -> M unit :=
  recursiveTester backgroundTotal subsetTotal GOdict gafDict gafSubset
                  minGenes threshold.

Lemma for_each_more_fuel (l : list term) fuel fuel' :
  (forall GOid s, fst (tester fuel GOid s) <> OutOfFuel ->
                  tester fuel' GOid s = tester fuel GOid s) ->
  forall s, fst (for_each l (tester fuel) s) <> OutOfFuel ->
            for_each l (tester fuel') s = for_each l (tester fuel) s.
Proof.
  intros Hbody. induction l as [|x l IH]; intros s H; simpl in *;
    [reflexivity|].
  unfold bind in *.
  destruct (tester fuel x s) as [[[]| e |] s1] eqn:Ex.
  - rewrite Hbody by (rewrite Ex; discriminate). rewrite Ex. now apply IH.
  - rewrite Hbody by (rewrite Ex; discriminate). now rewrite Ex.
  - simpl in H. congruence.
Qed.

(** A call that did not run out of depth gives the same result with a larger
    budget. *)
Lemma recursiveTester_more_fuel fuel :
  forall fuel' GOid s,
    (fuel <= fuel')%nat ->
    fst (tester fuel GOid s) <> OutOfFuel ->
    tester fuel' GOid s = tester fuel GOid s.
Proof.
  induction fuel as [|fuel IH]; intros fuel' GOid s Hle H.
  - simpl in H. congruence.
  - destruct fuel' as [|fuel']; [lia|].
    revert H. unfold tester. rewrite !recursiveTester_step. fold tester.
    destruct (Dict.get (table s) "pValues") as [pValues|]; [|reflexivity].
    destruct (Dict.mem pValues GOid); [reflexivity|].
    destruct (Dict.get GOdict GOid) as [t|]; [|reflexivity].
    cbv zeta.
    assert (Hparents : forall s0,
               fst (for_each (parents t) (tester fuel) s0) <> OutOfFuel ->
               for_each (parents t) (tester fuel') s0 =
               for_each (parents t) (tester fuel) s0).
    { apply for_each_more_fuel. intros g s0. apply IH. lia. }
    destruct (_ <? minGenes); [apply Hparents|].
    unfold bind.
    destruct (record_result _ _ _ _ s) as [[[]| e |] s1]; try reflexivity.
    destruct (Qgtb _ threshold); [apply Hparents|reflexivity].
Qed.

End FuelMonotone.

(** On a hierarchy whose parent relation is acyclic, with [rank] a bound on
    the depth of each term, a call of
    [recursiveTester] with a depth budget above the rank of its term does
    not run out of it, from any table, and every larger budget gives the
    same outcome and the same table. *)
Lemma recursiveTester_terminates_on_dag :
  forall (backgroundTotal subsetTotal : Z) (GOdict : Dict.t GOterm)
         (gafDict gafSubset : Dict.t (list term)) (minGenes : Z)
         (threshold : Q) (rank : term -> nat),
    (forall k t p,
        Dict.get GOdict k = Some t -> In p (parents t) ->
        (rank p < rank k)%nat) ->
    forall fuel GOid s,
      (rank GOid < fuel)%nat ->
      fst (recursiveTester backgroundTotal subsetTotal GOdict gafDict
                           gafSubset minGenes threshold fuel GOid s)
        <> OutOfFuel /\
      forall fuel',
        (fuel <= fuel')%nat ->
        recursiveTester backgroundTotal subsetTotal GOdict gafDict gafSubset
                        minGenes threshold fuel' GOid s =
        recursiveTester backgroundTotal subsetTotal GOdict gafDict gafSubset
                        minGenes threshold fuel GOid s.
Proof.
  intros bT sT GOdict gafDict gafSubset minGenes threshold rank Hrank
         fuel GOid s Hfuel.
  assert (H : fst (recursiveTester bT sT GOdict gafDict gafSubset minGenes
                                   threshold fuel GOid s) <> OutOfFuel)
    by (eapply recursiveTester_enough_fuel; eauto).
  split; [exact H|].
  intros fuel' Hle. now apply recursiveTester_more_fuel.
Qed.

Lemma chain_rank_parents :
  forall k t p,
    Dict.get chain k = Some t -> In p (parents t) ->
    (chain_rank p < chain_rank k)%nat.
Proof.
  intros k t p Hk Hp. unfold chain in Hk. cbn -[String.eqb] in Hk.
  destruct (String.eqb_spec "T" k) as [<-|_].
  - inversion Hk; subst. simpl in Hp. destruct Hp as [<-|[]].
    vm_compute. lia.
  - destruct (String.eqb_spec "root" k) as [<-|_]; [|discriminate].
    inversion Hk; subst. destruct Hp.
Qed.

(** The chain: a budget of two suffices for [T], whose rank is one. *)
Lemma recursiveTester_terminates_on_chain :
  fst (recursiveTester 10 3 chain chain_background chain_subset 3 (1 # 20) 2
                       "T" new_results) <> OutOfFuel.
Proof.
  apply (recursiveTester_terminates_on_dag 10 3 chain chain_background
           chain_subset 3 (1 # 20) chain_rank chain_rank_parents 2 "T"
           new_results).
  vm_compute. lia.
Qed.

(** *** Cycles cut by the memo table *)

Lemma recordedb_iff s k : recordedb s k = true <-> recorded s k.
Proof.
  rewrite recorded_iff. unfold recordedb. split.
  - destruct (Dict.get (table s) "pValues") as [d|]; [eauto|discriminate].
  - intros (d & -> & H). exact H.
Qed.

Lemma filter_length_mono {A : Type} (f g : A -> bool) (l : list A) :
  (forall x, In x l -> f x = true -> g x = true) ->
  (List.length (filter f l) <= List.length (filter g l))%nat.
Proof.
  induction l as [|x l IH]; intros H; simpl; [lia|].
  assert (IH' : (List.length (filter f l) <= List.length (filter g l))%nat)
    by (apply IH; intros y Hy; apply H; now right).
  pose proof (H x (or_introl eq_refl)) as Hx.
  destruct (f x), (g x); simpl; try lia; discriminate (Hx eq_refl).
Qed.

Lemma filter_length_strict {A : Type} (f g : A -> bool) (l : list A) (a : A) :
  (forall x, In x l -> f x = true -> g x = true) ->
  In a l -> g a = true -> f a = false ->
  (List.length (filter f l) < List.length (filter g l))%nat.
Proof.
  induction l as [|x l IH]; intros H Ha Hg Hf; [contradiction|].
  assert (Hle : (List.length (filter f l) <= List.length (filter g l))%nat)
    by (apply filter_length_mono; intros y Hy; apply H; now right).
  pose proof (H x (or_introl eq_refl)) as Hx. simpl.
  destruct Ha as [->|Ha].
  - rewrite Hg, Hf. simpl. lia.
  - assert (IH' : (List.length (filter f l) < List.length (filter g l))%nat)
      by (apply IH; auto; intros y Hy; apply H; now right).
    destruct (f x), (g x); simpl; try lia; discriminate (Hx eq_refl).
Qed.

Section CutCycles.

Variables backgroundTotal subsetTotal : Z.
Variable GOdict : Dict.t GOterm.
Variables gafDict gafSubset : Dict.t (list term).
Variable minGenes : Z.
Variable threshold : Q.

Let tester : nat -> term -> M unit :=
  recursiveTester backgroundTotal subsetTotal GOdict gafDict gafSubset
                  minGenes threshold.

(** [rank] decreases along every parent edge between two low-count terms: no
    cycle of the hierarchy consists of low-count terms only. *)
Variable rank : term -> nat.
Hypothesis rank_low :
  forall k t p,
    Dict.get GOdict k = Some t -> In p (parents t) ->
    low_count GOdict gafDict minGenes k ->
    low_count GOdict gafDict minGenes p ->
    (rank p < rank k)%nat.

Let R : nat := list_max (map rank (Dict.keys GOdict)).
Let U : store -> nat := untested GOdict gafDict minGenes.

(** The depth a call on [GOid] from the store [s] is given. *)
Let need (s : store) (GOid : term) : nat :=
  match Dict.get GOdict GOid with
  | None => 1%nat
  | Some t =>
      if recordedb s GOid then 1%nat
      else if countGOassociations (GOid :: recursive_children t) gafDict
              <? minGenes
           then (U s * (R + 3) + rank GOid + 2)%nat
           else (U s * (R + 3) + 1)%nat
  end.

Lemma untested_le s s' :
  (forall k, recorded s k -> recorded s' k) -> (U s' <= U s)%nat.
Proof.
  intros H. unfold U, untested. apply filter_length_mono.
  intros k _. rewrite !andb_true_iff, !negb_true_iff.
  intros [Ht Hr]. split; [assumption|].
  apply not_true_iff_false. rewrite recordedb_iff. intros Hs.
  apply H in Hs. apply recordedb_iff in Hs. congruence.
Qed.

Lemma untested_lt s s' k t :
  (forall k, recorded s k -> recorded s' k) ->
  Dict.get GOdict k = Some t ->
  ~ countGOassociations (k :: recursive_children t) gafDict < minGenes ->
  ~ recorded s k -> recorded s' k ->
  (U s' < U s)%nat.
Proof.
  intros H Ht Hc Hn Hr. unfold U, untested.
  apply filter_length_strict with (a := k).
  - intros k0 _. rewrite !andb_true_iff, !negb_true_iff.
    intros [Ht0 Hr0]. split; [assumption|].
    apply not_true_iff_false. rewrite recordedb_iff. intros Hs.
    apply H in Hs. apply recordedb_iff in Hs. congruence.
  - apply DictFacts.get_some_in. congruence.
  - apply andb_true_iff. split.
    + unfold testableb. rewrite Ht. apply negb_true_iff.
      apply Z.ltb_ge. now apply Z.nlt_ge.
    + apply negb_true_iff, not_true_iff_false. now rewrite recordedb_iff.
  - apply andb_false_iff. right. apply negb_false_iff. now apply recordedb_iff.
Qed.

Lemma rank_le_max k t : Dict.get GOdict k = Some t -> (rank k <= R)%nat.
Proof.
  intros Ht.
  assert (Hin : In k (Dict.keys GOdict))
    by (apply DictFacts.get_some_in; congruence).
  assert (Hle : (list_max (map rank (Dict.keys GOdict)) <= R)%nat)
    by (unfold R; lia).
  apply list_max_le in Hle. rewrite Forall_forall in Hle.
  apply Hle. now apply in_map.
Qed.

Lemma untested_le_length s : (U s <= List.length GOdict)%nat.
Proof.
  unfold U, untested.
  etransitivity; [apply List.filter_length_le|].
  unfold Dict.keys. now rewrite length_map.
Qed.

Lemma for_each_inv_not_out_of_fuel {A : Type} (Inv : store -> Prop)
    (body : A -> M unit) (l : list A) :
  (forall x, In x l -> forall s,
      Inv s -> fst (body x s) <> OutOfFuel /\ Inv (snd (body x s))) ->
  forall s, Inv s -> fst (for_each l body s) <> OutOfFuel.
Proof.
  induction l as [|x l IH]; intros Hbody s Hs; simpl; [discriminate|].
  unfold bind. destruct (Hbody x (or_introl eq_refl) s Hs) as [Hx Hi].
  destruct (body x s) as [[[]| e |] s1]; simpl in *; try congruence.
  apply IH; [|assumption]. intros y Hy. apply Hbody. now right.
Qed.

Lemma recursiveTester_untested fuel GOid s : (U (snd (tester fuel GOid s)) <= U s)%nat.
Proof.
  destruct (recursiveTester_extends backgroundTotal subsetTotal GOdict gafDict
              gafSubset minGenes threshold fuel GOid s) as [new H].
  apply untested_le. apply (ext_recorded _ _ _ _ H).
Qed.

(** A parent of a low-count term needs less depth than the term. *)
Lemma need_parent_of_low fuel k t p s s' :
  Dict.get GOdict k = Some t -> In p (parents t) ->
  countGOassociations (k :: recursive_children t) gafDict < minGenes ->
  (U s * (R + 3) + rank k + 2 <= S fuel)%nat ->
  (U s' <= U s)%nat ->
  (need s' p <= fuel)%nat.
Proof.
  intros Ht Hp Hlow Hfuel Hle.
  assert (Hmul : (U s' * (R + 3) <= U s * (R + 3))%nat)
    by (apply Nat.mul_le_mono_r; assumption).
  unfold need. destruct (Dict.get GOdict p) as [tp|] eqn:Etp; [|lia].
  destruct (recordedb s' p); [lia|].
  destruct (Z.ltb_spec (countGOassociations (p :: recursive_children tp) gafDict)
                       minGenes) as [Hplow|Hpok]; [|lia].
  assert (Hr : (rank p < rank k)%nat).
  { apply (rank_low k t p Ht Hp); [exists t|exists tp]; auto. }
  lia.
Qed.

(** A parent of a term that has just been recorded needs less depth than the
    term did. *)
Lemma need_parent_of_tested fuel p s s' :
  (U s * (R + 3) + 1 <= S fuel)%nat ->
  (U s' < U s)%nat ->
  (need s' p <= fuel)%nat.
Proof.
  intros Hfuel Hlt.
  assert (Hmul : (S (U s') * (R + 3) <= U s * (R + 3))%nat)
    by (apply Nat.mul_le_mono_r; lia).
  rewrite Nat.mul_succ_l in Hmul.
  unfold need. destruct (Dict.get GOdict p) as [tp|] eqn:Etp; [|lia].
  destruct (recordedb s' p); [lia|].
  pose proof (rank_le_max p tp Etp) as Hr.
  destruct (_ <? minGenes); lia.
Qed.

Lemma recursiveTester_bounded fuel :
  forall GOid s,
    (need s GOid <= fuel)%nat -> fst (tester fuel GOid s) <> OutOfFuel.
Proof.
  induction fuel as [|fuel IH]; intros GOid s Hneed.
  - exfalso. revert Hneed. unfold need.
    destruct (Dict.get GOdict GOid); [|lia].
    destruct (recordedb s GOid); [lia|].
    destruct (_ <? minGenes); lia.
  - unfold tester. rewrite recursiveTester_step. fold tester.
    destruct (Dict.get (table s) "pValues") as [pValues|] eqn:Epv;
      [|discriminate].
    destruct (Dict.mem pValues GOid) eqn:Emem; [discriminate|].
    destruct (Dict.get GOdict GOid) as [t|] eqn:Et; [|discriminate].
    cbv zeta.
    assert (Hrb : recordedb s GOid = false)
      by (unfold recordedb; now rewrite Epv).
    unfold need in Hneed. rewrite Et, Hrb in Hneed.
    destruct (Z.ltb_spec (countGOassociations (GOid :: recursive_children t) gafDict)
                         minGenes) as [Hlow|Hok].
    + apply (for_each_inv_not_out_of_fuel (fun s' => (U s' <= U s)%nat));
        [|lia].
      intros p Hp s' Hs'. split.
      * apply IH. eapply need_parent_of_low; eauto.
      * etransitivity; [apply recursiveTester_untested|assumption].
    + assert (Hnr : ~ recorded s GOid)
        by (rewrite <- recordedb_iff; congruence).
      assert (Hpv : Dict.get (table s) "pValues" <> None) by congruence.
      unfold bind.
      match goal with
      | |- context [record_result ?k ?p ?a ?b s] =>
          pose proof (record_result_not_out_of_fuel k p a b s) as Hnot;
          destruct (record_result_extends (fun _ => True) s k p a b Hpv Hnr I)
            as (n1 & Hext & Hrec);
          destruct (record_result k p a b s) as [[[]| e |] s1]
      end; simpl in *; try congruence.
      destruct (Qgtb _ threshold); [|discriminate].
      assert (Hlt : (U s1 < U s)%nat).
      { apply (untested_lt s s1 GOid t); auto.
        - apply (ext_recorded _ _ _ _ Hext).
        - now apply Z.le_ngt. }
      apply (for_each_inv_not_out_of_fuel (fun s' => (U s' <= U s1)%nat));
        [|lia].
      intros p Hp s' Hs'. split.
      * apply IH. eapply need_parent_of_tested; eauto. lia.
      * etransitivity; [apply recursiveTester_untested|assumption].
Qed.

Lemma need_le_depth_bound s GOid :
  (need s GOid <= depth_bound GOdict rank)%nat.
Proof.
  unfold depth_bound. fold R.
  pose proof (untested_le_length s) as Hu.
  assert (Hmul : (U s * (R + 3) <= List.length GOdict * (R + 3))%nat)
    by (apply Nat.mul_le_mono_r; assumption).
  rewrite Nat.mul_succ_l.
  unfold need. destruct (Dict.get GOdict GOid) as [t|] eqn:Et; [|lia].
  pose proof (rank_le_max GOid t Et) as Hr.
  destruct (recordedb s GOid); [lia|].
  destruct (_ <? minGenes); lia.
Qed.

Lemma recursiveTester_depth_bound GOid s :
  fst (tester (depth_bound GOdict rank) GOid s) <> OutOfFuel.
Proof.
  apply recursiveTester_bounded. apply need_le_depth_bound.
Qed.

End CutCycles.

(** C6, as the code has it.  The memo table is the only guard of the
    recursion.  On every hierarchy in which no cycle of the parent relation
    consists of low-count terms only ([rank] decreases along every parent
    edge between two terms whose background count is below [minGenes]), so
    in particular on every acyclic hierarchy, a call of [recursiveTester]
    with the depth [depth_bound], which depends on the hierarchy alone, does
    not run out of it, from any term and any table; and every larger depth
    gives the same outcome and the same table. *)
Theorem recursiveTester_terminates :
  forall (backgroundTotal subsetTotal : Z) (GOdict : Dict.t GOterm)
         (gafDict gafSubset : Dict.t (list term)) (minGenes : Z)
         (threshold : Q) (rank : term -> nat),
    (forall k t p,
        Dict.get GOdict k = Some t -> In p (parents t) ->
        low_count GOdict gafDict minGenes k ->
        low_count GOdict gafDict minGenes p ->
        (rank p < rank k)%nat) ->
    forall fuel GOid s,
      (depth_bound GOdict rank <= fuel)%nat ->
      fst (recursiveTester backgroundTotal subsetTotal GOdict gafDict
                           gafSubset minGenes threshold fuel GOid s)
        <> OutOfFuel /\
      recursiveTester backgroundTotal subsetTotal GOdict gafDict gafSubset
                      minGenes threshold fuel GOid s =
      recursiveTester backgroundTotal subsetTotal GOdict gafDict gafSubset
                      minGenes threshold (depth_bound GOdict rank) GOid s.
Proof.
  intros bT sT GOdict gafDict gafSubset minGenes threshold rank Hrank
         fuel GOid s Hfuel.
  pose proof (recursiveTester_depth_bound bT sT GOdict gafDict gafSubset
                minGenes threshold rank Hrank GOid s) as H.
  pose proof (recursiveTester_more_fuel bT sT GOdict gafDict gafSubset
                minGenes threshold _ fuel GOid s Hfuel H) as E.
  split; [|exact E]. now rewrite E.
Qed.

(** The two-term cycle with genes on both terms: the cycle is cut by the
    p-value of [A], and the call returns. *)
Lemma recursiveTester_terminates_on_cut_cycle :
  fst (recursiveTester 3 1 cycle cycle_background Dict.empty 1 (1 # 20)
                       (depth_bound cycle (fun _ => 0%nat)) "A" new_results)
    <> OutOfFuel.
Proof.
  apply (recursiveTester_terminates 3 1 cycle cycle_background Dict.empty 1
           (1 # 20) (fun _ => 0%nat)); [|apply Nat.le_refl].
  intros k t p Hk _ (t' & Ht' & Hlow) _. exfalso.
  rewrite Hk in Ht'. inversion Ht'; subst t'. clear Ht'.
  unfold cycle in Hk. cbn -[String.eqb] in Hk.
  destruct (String.eqb_spec "A" k) as [<-|_].
  - inversion Hk; subst. vm_compute in Hlow. discriminate.
  - destruct (String.eqb_spec "B" k) as [<-|_]; [|discriminate].
    inversion Hk; subst. vm_compute in Hlow. discriminate.
Defined.

(** C6 as stated fails: on the two-term cycle, where no term reaches
    [minGenes], the call on [A] exceeds every depth budget. *)
Lemma recursiveTester_cycle_unbounded :
  unbounded_recursion
    (fun fuel =>
       recursiveTester 0 0 cycle Dict.empty Dict.empty 3 (1 # 20) fuel "A"
                       new_results).
Proof.
  assert (H : forall fuel,
             recursiveTester 0 0 cycle Dict.empty Dict.empty 3 (1 # 20) fuel
                             "A" new_results = (OutOfFuel, new_results) /\
             recursiveTester 0 0 cycle Dict.empty Dict.empty 3 (1 # 20) fuel
                             "B" new_results = (OutOfFuel, new_results)).
  { induction fuel as [|fuel [IHA IHB]]; [split; reflexivity|].
    rewrite !recursiveTester_step. simpl. unfold bind.
    rewrite IHA, IHB. split; reflexivity. }
  intros fuel. now rewrite (proj1 (H fuel)).
Qed.

(** ** Base terms *)

Lemma mem_str_iff x l : mem_str x l = true <-> In x l.
Proof.
  unfold mem_str. rewrite existsb_exists. split.
  - intros (y & Hy & E). apply String.eqb_eq in E. now subst.
  - intros H. exists x. split; [assumption|apply String.eqb_refl].
Qed.

Lemma In_dedup x l : In x (dedup l) <-> In x l.
Proof.
  induction l as [|y l IH]; simpl; [tauto|].
  rewrite filter_In, IH, negb_true_iff.
  destruct (String.eqb_spec y x) as [->|Hne]; [tauto|].
  intuition congruence.
Qed.

Lemma NoDup_dedup l : NoDup (dedup l).
Proof.
  induction l as [|y l IH]; simpl; constructor.
  - rewrite filter_In, String.eqb_refl. simpl. intros [_ H]. discriminate.
  - now apply NoDup_filter.
Qed.

Lemma ancestors_of_known GOdict ids s :
  (forall GOid, In GOid ids -> Dict.get GOdict GOid <> None) ->
  ancestors_of GOdict ids s = (Ok (known_ancestors GOdict ids), s).
Proof.
  induction ids as [|GOid ids IH]; intros Hknown; simpl; [reflexivity|].
  unfold bind, lookup_term.
  pose proof (Hknown GOid (or_introl eq_refl)) as Hg.
  destruct (Dict.get GOdict GOid) as [t|]; [|congruence].
  unfold ret at 1. rewrite IH by (intros g Hin; apply Hknown; now right).
  reflexivity.
Qed.

Lemma In_subsetGOids gafSubset GOid :
  In GOid (subsetGOids gafSubset) <->
  exists gene GOids, In (gene, GOids) (Dict.items gafSubset) /\ In GOid GOids.
Proof.
  unfold subsetGOids. rewrite In_dedup, in_flat_map. split.
  - intros ([gene GOids] & H1 & H2). eauto.
  - intros (gene & GOids & H1 & H2). exists (gene, GOids). auto.
Qed.

Lemma In_known_ancestors GOdict ids p :
  In p (known_ancestors GOdict ids) <->
  exists GOid t, In GOid ids /\ Dict.get GOdict GOid = Some t /\
                 In p (recursive_parents t).
Proof.
  unfold known_ancestors. rewrite in_flat_map. split.
  - intros (GOid & H1 & H2).
    destruct (Dict.get GOdict GOid) as [t|] eqn:E; [|contradiction].
    eauto.
  - intros (GOid & t & H1 & H2 & H3). exists GOid. rewrite H2. auto.
Qed.

Lemma baseGOids_known GOdict gafSubset :
  (forall gene GOids GOid,
      In (gene, GOids) (Dict.items gafSubset) -> In GOid GOids ->
      Dict.get GOdict GOid <> None) ->
  forall s, baseGOids GOdict gafSubset s = (Ok (base_terms GOdict gafSubset), s).
Proof.
  intros Hknown s. unfold baseGOids, subsetGOidsParents, bind.
  rewrite (ancestors_of_known GOdict (subsetGOids gafSubset) s); [reflexivity|].
  intros GOid Hin. apply In_subsetGOids in Hin.
  destruct Hin as (gene & GOids & H1 & H2). eauto.
Qed.

Lemma In_base_terms GOdict gafSubset GOid :
  In GOid (base_terms GOdict gafSubset) <->
  In GOid (subsetGOids gafSubset) /\
  ~ In GOid (known_ancestors GOdict (subsetGOids gafSubset)).
Proof.
  unfold base_terms. cbv zeta.
  rewrite filter_In, negb_true_iff, <- not_true_iff_false, mem_str_iff.
  now rewrite In_dedup.
Qed.

(** C4.  When every term associated with a subset gene is known to the
    hierarchy, base-term selection returns, leaves the table alone, and
    yields each term once; a term is selected exactly when it is associated
    with some subset gene and is in the recursive-parent set of no term that
    is associated with a subset gene; and the analysis is the loop of
    [recursiveTester] over exactly these terms on a new table. *)
Theorem baseGOids_most_specific :
  forall (GOdict : Dict.t GOterm) (gafSubset : Dict.t (list term)),
    (forall gene GOids GOid,
        In (gene, GOids) (Dict.items gafSubset) -> In GOid GOids ->
        Dict.get GOdict GOid <> None) ->
    exists base,
      (forall s, baseGOids GOdict gafSubset s = (Ok base, s)) /\
      NoDup base /\
      (forall GOid,
          In GOid base <->
          (exists gene GOids,
              In (gene, GOids) (Dict.items gafSubset) /\ In GOid GOids) /\
          ~ (exists gene GOids GOid' t,
               In (gene, GOids) (Dict.items gafSubset) /\ In GOid' GOids /\
               Dict.get GOdict GOid' = Some t /\
               In GOid (recursive_parents t))) /\
      (forall fuel gafDict minGenes threshold,
          enrichmentAnalysis fuel GOdict gafDict gafSubset minGenes threshold =
          bind (for_each base
                  (recursiveTester (Dict.len gafDict) (Dict.len gafSubset)
                                   GOdict gafDict gafSubset minGenes threshold
                                   fuel))
               (fun _ s => (Ok (table s), s)) new_results).
Proof.
  intros GOdict gafSubset Hknown.
  exists (base_terms GOdict gafSubset).
  split; [now apply baseGOids_known|]. split; [|split].
  - apply NoDup_filter. apply NoDup_dedup.
  - intros GOid.
    rewrite In_base_terms, In_known_ancestors, In_subsetGOids. split.
    + intros [H1 H2]. split; [exact H1|].
      intros (gene & GOids & GOid' & t & Ha & Hb & Hc & Hd).
      apply H2. exists GOid', t. split; [|auto].
      apply In_subsetGOids. eauto.
    + intros [H1 H2]. split; [exact H1|].
      intros (GOid' & t & Ha & Hb & Hc). apply H2.
      apply In_subsetGOids in Ha. destruct Ha as (gene & GOids & Ha1 & Ha2).
      exists gene, GOids, GOid', t. auto.
  - intros fuel gafDict minGenes threshold.
    unfold enrichmentAnalysis. unfold bind at 1.
    rewrite baseGOids_known by assumption. reflexivity.
Qed.

(** The chain: [T] is the only base term, its ancestor-free subset term. *)
Lemma baseGOids_most_specific_chain :
  exists base,
    (forall s, baseGOids chain chain_subset s = (Ok base, s)) /\
    base = ["T"].
Proof.
  destruct (baseGOids_most_specific chain chain_subset)
    as (base & Hrun & _ & _ & _).
  - intros gene GOids GOid Hin HG. vm_compute in Hin.
    destruct Hin as [E|[E|[E|[]]]]; inversion E; subst; simpl in HG;
      intuition (subst; vm_compute; discriminate).
  - exists base. split; [exact Hrun|].
    pose proof (Hrun new_results) as E. vm_compute in E. congruence.
Defined.

(** ** Runs that complete *)

Lemma for_each_ok {A : Type} (Inv : store -> Prop) (body : A -> M unit)
    (l : list A) :
  (forall x, In x l -> forall s,
      Inv s -> fst (body x s) = Ok tt /\ Inv (snd (body x s))) ->
  forall s, Inv s ->
    fst (for_each l body s) = Ok tt /\ Inv (snd (for_each l body s)).
Proof.
  induction l as [|x l IH]; intros Hbody s Hs; simpl; [auto|].
  unfold bind. destruct (Hbody x (or_introl eq_refl) s Hs) as [Hx Hi].
  destruct (body x s) as [[[]| e |] s1]; simpl in *; try discriminate.
  apply IH; [|assumption]. intros y Hy. apply Hbody. now right.
Qed.

Section Completion.

Variables backgroundTotal subsetTotal : Z.
Variable GOdict : Dict.t GOterm.
Variables gafDict gafSubset : Dict.t (list term).
Variable minGenes : Z.
Variable threshold : Q.

Let tester : nat -> term -> M unit :=
  recursiveTester backgroundTotal subsetTotal GOdict gafDict gafSubset
                  minGenes threshold.

(** The hierarchy knows the parents of its terms, and [rank] decreases
    towards them. *)
Variable rank : term -> nat.
Hypothesis parents_known :
  forall k t p,
    Dict.get GOdict k = Some t -> In p (parents t) ->
    Dict.get GOdict p <> None /\ (rank p < rank k)%nat.

Lemma recursiveTester_table_ok fuel GOid s :
  table_ok s -> table_ok (snd (tester fuel GOid s)).
Proof.
  destruct (recursiveTester_extends backgroundTotal subsetTotal GOdict gafDict
              gafSubset minGenes threshold fuel GOid s) as [new H].
  apply (extends_table_ok _ _ _ _ H).
Qed.

Lemma recursiveTester_completes fuel :
  forall GOid s,
    (rank GOid < fuel)%nat -> table_ok s -> Dict.get GOdict GOid <> None ->
    fst (tester fuel GOid s) = Ok tt.
Proof.
  induction fuel as [|fuel IH]; intros GOid s Hrank Hok Hknown; [lia|].
  unfold tester. rewrite recursiveTester_step. fold tester.
  pose proof Hok as (Hpv & _).
  destruct (Dict.get (table s) "pValues") as [pValues|]; [|congruence].
  destruct (Dict.mem pValues GOid); [reflexivity|].
  destruct (Dict.get GOdict GOid) as [t|] eqn:Et; [|congruence].
  cbv zeta.
  assert (Hparents : forall s0, table_ok s0 ->
             fst (for_each (parents t) (tester fuel) s0) = Ok tt).
  { intros s0 Hs0.
    apply (for_each_ok table_ok (tester fuel) (parents t)); [|assumption].
    intros p Hp s1 Hs1.
    destruct (parents_known GOid t p Et Hp) as [Hk Hr].
    split; [apply IH; auto; lia | now apply recursiveTester_table_ok]. }
  destruct (_ <? minGenes); [now apply Hparents|].
  unfold bind.
  match goal with
  | |- context [record_result ?k ?p ?a ?b s] =>
      destruct (record_result_ok s k p a b Hok)
        as (s1 & -> & _ & _ & _ & _ & _ & Hsubs)
  end.
  destruct (Qgtb _ threshold); [|reflexivity].
  apply Hparents. destruct Hok as (H1 & H2 & H3). unfold table_ok.
  rewrite !Hsubs. auto.
Qed.

End Completion.

Lemma table_ok_new_results : table_ok new_results.
Proof. unfold table_ok. simpl. repeat split; discriminate. Qed.

(** C7, as the code has it.  The analysis does not examine [minGenes] or
    [threshold]: whatever their values, on an acyclic hierarchy that knows
    the parents of its terms and every term associated with a subset gene,
    the run returns the table normally for every depth budget from some
    budget on. *)
Theorem enrichmentAnalysis_any_configuration :
  forall (GOdict : Dict.t GOterm) (gafDict gafSubset : Dict.t (list term))
         (minGenes : Z) (threshold : Q) (rank : term -> nat),
    (forall k t p,
        Dict.get GOdict k = Some t -> In p (parents t) ->
        Dict.get GOdict p <> None /\ (rank p < rank k)%nat) ->
    (forall gene GOids GOid,
        In (gene, GOids) (Dict.items gafSubset) -> In GOid GOids ->
        Dict.get GOdict GOid <> None) ->
    exists fuel s,
      forall fuel',
        (fuel <= fuel')%nat ->
        enrichmentAnalysis fuel' GOdict gafDict gafSubset minGenes threshold =
        (Ok (table s), s).
Proof.
  intros GOdict gafDict gafSubset minGenes threshold rank Hparents Hknown.
  set (base := base_terms GOdict gafSubset).
  set (fuel := S (list_max (map rank base))).
  set (tester := recursiveTester (Dict.len gafDict) (Dict.len gafSubset)
                                 GOdict gafDict gafSubset minGenes threshold).
  assert (Hok : fst (for_each base (tester fuel) new_results) = Ok tt).
  { apply (for_each_ok table_ok (tester fuel) base);
      [|apply table_ok_new_results].
    intros GOid Hin s Hs. split.
    - apply (recursiveTester_completes _ _ _ _ _ _ _ rank Hparents);
        [|assumption|].
      + assert (Hle : (list_max (map rank base) <= list_max (map rank base))%nat)
          by lia.
        apply list_max_le in Hle. rewrite Forall_forall in Hle.
        specialize (Hle (rank GOid) (in_map rank _ _ Hin)). unfold fuel. lia.
      + apply In_base_terms in Hin. destruct Hin as [Hin _].
        apply In_subsetGOids in Hin. destruct Hin as (gene & GOids & H1 & H2).
        eauto.
    - now apply recursiveTester_table_ok. }
  exists fuel, (snd (for_each base (tester fuel) new_results)).
  intros fuel' Hle. unfold enrichmentAnalysis. unfold bind at 1.
  rewrite baseGOids_known by assumption. fold base. unfold bind.
  unfold tester in *.
  rewrite (for_each_more_fuel _ _ _ _ _ _ _ base fuel fuel').
  - destruct (for_each base _ new_results) as [r s1].
    simpl in Hok. subst r. reflexivity.
  - intros GOid s. now apply recursiveTester_more_fuel.
  - rewrite Hok. discriminate.
Qed.

(** The chain with the invalid configuration [minGenes = -1] and
    [threshold = 2]: the run returns normally. *)
Lemma enrichmentAnalysis_any_configuration_chain :
  exists fuel s,
    forall fuel',
      (fuel <= fuel')%nat ->
      enrichmentAnalysis fuel' chain chain_background chain_subset (-1) (2 # 1)
      = (Ok (table s), s).
Proof.
  apply (enrichmentAnalysis_any_configuration chain chain_background
           chain_subset (-1) (2 # 1) chain_rank).
  - intros k t p Hk Hp. split; [|eapply chain_rank_parents; eauto].
    unfold chain in Hk. cbn -[String.eqb] in Hk.
    destruct (String.eqb_spec "T" k) as [<-|_].
    + inversion Hk; subst. simpl in Hp. destruct Hp as [<-|[]].
      vm_compute. discriminate.
    + destruct (String.eqb_spec "root" k) as [<-|_]; [|discriminate].
      inversion Hk; subst. destruct Hp.
  - intros gene GOids GOid Hin HG. vm_compute in Hin.
    destruct Hin as [E|[E|[E|[]]]]; inversion E; subst; simpl in HG;
      intuition (subst; vm_compute; discriminate).
Defined.

(** C7 as stated fails: with a negative [minGenes], and with a [threshold]
    above one, the analysis raises nothing; it tests [T] and returns the
    table with the p-value of [T] in it. *)
Lemma enrichmentAnalysis_invalid_configuration_runs :
  (exists s,
      enrichmentAnalysis 3 chain chain_background chain_subset (-1) (1 # 20)
      = (Ok (table s), s) /\
      entry s "pValues" "T" = Some (enrichmentOneSided 2 10 4 3)) /\
  (exists s,
      enrichmentAnalysis 3 chain chain_background chain_subset 3 (2 # 1)
      = (Ok (table s), s) /\
      entry s "pValues" "T" = Some (enrichmentOneSided 2 10 4 3)).
Proof.
  split.
  - exists (snd (enrichmentAnalysis 3 chain chain_background chain_subset
                                    (-1) (1 # 20))).
    split; vm_compute; reflexivity.
  - exists (snd (enrichmentAnalysis 3 chain chain_background chain_subset
                                    3 (2 # 1))).
    split; vm_compute; reflexivity.
Qed.

(** ** Multiple-testing correction *)

Lemma get_app_fresh {V : Type} (a b : Dict.t V) k :
  Dict.get a k = None -> Dict.get b k = None -> Dict.get (a ++ b) k = None.
Proof.
  rewrite !DictFacts.get_none_iff. unfold Dict.keys. rewrite map_app.
  intros Ha Hb Hin. apply in_app_or in Hin. tauto.
Qed.

Lemma fold_set_fresh {V : Type} (l : list (string * V)) :
  forall acc,
    NoDup (map fst l) ->
    (forall k, In k (map fst l) -> Dict.get acc k = None) ->
    fold_left (fun d kv => Dict.set d (fst kv) (snd kv)) l acc = acc ++ l.
Proof.
  induction l as [|[k v] l IH]; intros acc Hnd Hfresh; simpl.
  - now rewrite app_nil_r.
  - inversion Hnd as [|? ? Hk Hnd']; subst.
    rewrite DictFacts.set_new by (apply Hfresh; now left).
    rewrite IH; [now rewrite <- app_assoc|assumption|].
    intros k' Hk'. apply get_app_fresh.
    + apply Hfresh. now right.
    + simpl. destruct (String.eqb_spec k k'); [congruence|reflexivity].
Qed.

(** A comprehension over pairs with distinct keys is the list of the pairs. *)
Lemma of_items_nodup {V : Type} (l : list (string * V)) :
  NoDup (map fst l) -> Dict.of_items l = l.
Proof.
  intros H. unfold Dict.of_items.
  now rewrite fold_set_fresh by (auto; intros; reflexivity).
Qed.

Lemma keys_combine {V : Type} (ks : list string) :
  forall vs : list V,
    List.length ks = List.length vs -> Dict.keys (combine ks vs) = ks.
Proof.
  induction ks as [|k ks IH]; intros [|v vs] H; simpl in *;
    try discriminate; [reflexivity|].
  f_equal. apply IH. lia.
Qed.

Lemma keys_combine_incl {V : Type} (ks : list string) :
  forall (vs : list V) k, In k (Dict.keys (combine ks vs)) -> In k ks.
Proof.
  induction ks as [|k0 ks IH]; intros [|v vs] k H; simpl in *; try tauto.
  destruct H as [H|H]; [now left|right; eauto].
Qed.

Lemma NoDup_keys_combine {V : Type} (ks : list string) :
  forall vs : list V, NoDup ks -> NoDup (Dict.keys (combine ks vs)).
Proof.
  induction ks as [|k ks IH]; intros [|v vs] H; simpl; try constructor.
  - inversion H; subst. intros Hin. apply keys_combine_incl in Hin.
    contradiction.
  - inversion H; subst. now apply IH.
Qed.

(** Looking a key up in a zip gives the value at the key's position. *)
Lemma get_combine {V : Type} (ks : list string) :
  forall (vs : list V) i t,
    NoDup ks -> nth_error ks i = Some t ->
    Dict.get (combine ks vs) t = nth_error vs i.
Proof.
  induction ks as [|k ks IH]; intros vs i t Hnd Hi.
  - destruct i; discriminate.
  - inversion Hnd as [|? ? Hk Hnd']; subst.
    destruct vs as [|v vs]; [now destruct i|]. simpl.
    destruct i as [|i]; simpl in *.
    + inversion Hi; subst. now rewrite String.eqb_refl.
    + destruct (String.eqb_spec k t) as [->|Hne].
      * exfalso. apply Hk. eapply nth_error_In; eauto.
      * now apply IH.
Qed.

(** [keys()] and [values()] enumerate a dictionary in the same order. *)
Lemma get_values_nth {V : Type} (d : Dict.t V) :
  forall i t,
    Dict.wf d -> nth_error (Dict.keys d) i = Some t ->
    Dict.get d t = nth_error (Dict.values d) i.
Proof.
  induction d as [|[k v] d IH]; intros i t Hwf Hi.
  - destruct i; discriminate.
  - unfold Dict.wf in Hwf. simpl in Hwf.
    inversion Hwf as [|? ? Hk Hnd']; subst. simpl.
    destruct i as [|i]; simpl in *.
    + inversion Hi; subst. now rewrite String.eqb_refl.
    + destruct (String.eqb_spec k t) as [->|Hne].
      * exfalso. apply Hk. eapply nth_error_In; eauto.
      * now apply IH.
Qed.

Lemma length_update {A : Type} (l : list A) :
  forall i v, List.length (update i v l) = List.length l.
Proof.
  induction l as [|x l IH]; intros [|i] v; simpl; auto.
Qed.

Lemma length_unsort {A : Type} (sortind : list nat) (vals : list A) default :
  List.length (unsort sortind vals default) = List.length sortind.
Proof.
  unfold unsort.
  assert (H : forall (ivs : list (nat * A)) out,
             List.length (fold_left (fun out iv => update (fst iv) (snd iv) out)
                                    ivs out) = List.length out).
  { induction ivs as [|iv ivs IH]; intros out; simpl; [reflexivity|].
    now rewrite IH, length_update. }
  now rewrite H, repeat_length.
Qed.

Lemma length_insert_sorted x l :
  List.length (insert_sorted x l) = S (List.length l).
Proof.
  induction l as [|y l IH]; simpl; [reflexivity|].
  destruct (Qle_bool (snd y) (snd x)); simpl; [now rewrite IH|reflexivity].
Qed.

Lemma length_argsort pvals :
  List.length (argsort pvals) = List.length pvals.
Proof.
  unfold argsort.
  assert (H : forall (xs : list (nat * Q)) acc,
             List.length (fold_left (fun acc x => insert_sorted x acc) xs acc)
             = (List.length xs + List.length acc)%nat).
  { induction xs as [|x xs IH]; intros acc; simpl; [reflexivity|].
    rewrite IH, length_insert_sorted. lia. }
  rewrite H, length_combine, length_seq. simpl. lia.
Qed.

(** The correction returns one corrected value per p-value. *)
Lemma length_multipletests pvals alpha method :
  List.length (snd (multipletests pvals alpha method)) = List.length pvals.
Proof.
  unfold multipletests. destruct (String.eqb method "bonferroni").
  - unfold bonferroni. simpl. apply length_map.
  - unfold fdr_bh. simpl.
    now rewrite length_unsort, length_map, length_argsort.
Qed.

(** The corrector, by cases on the table. *)
Lemma multipleTestingCorrection_step testType threshold s :
  multipleTestingCorrection testType threshold s =
  match Dict.get (table s) "pValues" with
  | None => (Raised (KeyError "pValues"), s)
  | Some d =>
      (Ok tt,
       {| table :=
            Dict.set (table s) "corr"
              (Dict.of_items
                 (combine (Dict.keys d)
                    (snd (multipletests (Dict.values d) threshold
                                        (method_of testType)))));
          assigned := assigned s |})
  end.
Proof.
  unfold multipleTestingCorrection, bind, getitem, ret, setsub, method_of.
  cbv beta.
  destruct (Dict.get (table s) "pValues") as [d|] eqn:E; [|reflexivity].
  cbv beta iota. rewrite E.
  destruct (String.eqb testType "bonferroni"); reflexivity.
Qed.

Lemma corr_is_zip (d : Dict.t Q) threshold method :
  Dict.wf d ->
  Dict.of_items
    (combine (Dict.keys d)
             (snd (multipletests (Dict.values d) threshold method))) =
  combine (Dict.keys d) (snd (multipletests (Dict.values d) threshold method)).
Proof.
  intros Hwf. apply of_items_nodup.
  change (NoDup (Dict.keys (combine (Dict.keys d)
            (snd (multipletests (Dict.values d) threshold method))))).
  now apply NoDup_keys_combine.
Qed.

(** C5, as the code has it.  Every method identifier other than
    ['bonferroni'], known or not, is treated as ['fdr']: the corrector runs
    the Benjamini-Hochberg correction and stores its result under ['corr'];
    the only exception it can raise is the [KeyError] of a table without
    ['pValues']. *)
Theorem multipleTestingCorrection_default_fdr :
  forall (testType : string) (threshold : Q) (s : store),
    testType <> "bonferroni" ->
    multipleTestingCorrection testType threshold s =
      multipleTestingCorrection "fdr" threshold s /\
    (forall d,
        Dict.get (table s) "pValues" = Some d ->
        multipleTestingCorrection testType threshold s =
        (Ok tt,
         {| table :=
              Dict.set (table s) "corr"
                (Dict.of_items
                   (combine (Dict.keys d)
                            (snd (fdr_bh (Dict.values d) threshold))));
            assigned := assigned s |})) /\
    (forall e,
        fst (multipleTestingCorrection testType threshold s) = Raised e ->
        e = KeyError "pValues" /\ Dict.get (table s) "pValues" = None).
Proof.
  intros testType threshold s Hne.
  assert (Hm : method_of testType = "fdr_bh").
  { unfold method_of. destruct (String.eqb_spec testType "bonferroni");
      [contradiction|reflexivity]. }
  rewrite !multipleTestingCorrection_step, Hm.
  split; [reflexivity|]. split.
  - intros d ->. reflexivity.
  - intros e. destruct (Dict.get (table s) "pValues"); simpl.
    + discriminate.
    + intros E. inversion E. auto.
Qed.

(** The unknown method ['holm'] on the sample table. *)
Lemma multipleTestingCorrection_default_fdr_holm :
  multipleTestingCorrection "holm" (1 # 20) sample_results =
  multipleTestingCorrection "fdr" (1 # 20) sample_results.
Proof.
  apply (multipleTestingCorrection_default_fdr "holm" (1 # 20) sample_results).
  intros H. discriminate H.
Defined.

(** C5 as stated fails: with the unknown method ['holm'] the corrector
    raises nothing and stores the Benjamini-Hochberg values. *)
Lemma multipleTestingCorrection_unknown_method_runs :
  fst (multipleTestingCorrection "holm" (1 # 20) sample_results) = Ok tt /\
  option_map Qred
    (entry (snd (multipleTestingCorrection "holm" (1 # 20) sample_results))
           "corr" "T") = Some (1 # 2)%Q /\
  multipleTestingCorrection "holm" (1 # 20) sample_results =
  multipleTestingCorrection "fdr" (1 # 20) sample_results.
Proof. vm_compute. repeat split. Qed.

(** *** The tables the analysis builds *)

Lemma setitem_wf sub k v s :
  subdicts_wf s -> subdicts_wf (snd (setitem sub k v s)).
Proof.
  intros Hs. rewrite setitem_eq.
  destruct (Dict.get (table s) sub) as [d|] eqn:Ed; [|exact Hs].
  intros sub' d'. simpl.
  destruct (String.eqb_spec sub sub') as [<-|Hne].
  - rewrite DictFacts.get_set_same. intros E. inversion E; subst.
    apply DictFacts.wf_set. eapply Hs; eauto.
  - rewrite DictFacts.get_set_other by assumption. apply Hs.
Qed.

Lemma bind_preserves {A B : Type} (Inv : store -> Prop) (m : M A)
    (k : A -> M B) s :
  Inv (snd (m s)) -> (forall a s', Inv s' -> Inv (snd (k a s'))) ->
  Inv (snd (bind m k s)).
Proof.
  intros Hm Hk. unfold bind.
  destruct (m s) as [[a| e |] s1]; simpl in *; auto.
Qed.

Lemma for_each_preserves {A : Type} (Inv : store -> Prop) (body : A -> M unit)
    (l : list A) :
  (forall x s, Inv s -> Inv (snd (body x s))) ->
  forall s, Inv s -> Inv (snd (for_each l body s)).
Proof.
  intros Hbody. induction l as [|x l IH]; intros s Hs; simpl; [exact Hs|].
  apply bind_preserves; auto.
Qed.

Lemma recursiveTester_wf bT sT GOdict gafDict gafSubset minGenes threshold fuel :
  forall GOid s,
    subdicts_wf s ->
    subdicts_wf (snd (recursiveTester bT sT GOdict gafDict gafSubset minGenes
                                      threshold fuel GOid s)).
Proof.
  induction fuel as [|fuel IH]; intros GOid s Hs; [exact Hs|].
  rewrite recursiveTester_step.
  destruct (Dict.get (table s) "pValues") as [pValues|]; [|exact Hs].
  destruct (Dict.mem pValues GOid); [exact Hs|].
  destruct (Dict.get GOdict GOid) as [t|]; [|exact Hs].
  cbv zeta.
  destruct (_ <? minGenes); [now apply for_each_preserves|].
  apply bind_preserves.
  - unfold record_result.
    apply bind_preserves; [now apply setitem_wf|]. intros _ s1 H1.
    apply bind_preserves; [now apply setitem_wf|]. intros _ s2 H2.
    now apply setitem_wf.
  - intros _ s1 H1. destruct (Qgtb _ threshold); [|exact H1].
    now apply for_each_preserves.
Qed.

(** The sub-dictionaries of the table an analysis leaves have no repeated
    key. *)
Lemma enrichmentAnalysis_wf fuel GOdict gafDict gafSubset minGenes threshold :
  subdicts_wf
    (snd (enrichmentAnalysis fuel GOdict gafDict gafSubset minGenes threshold)).
Proof.
  assert (Hnew : subdicts_wf new_results).
  { intros sub d. unfold new_results. cbn -[String.eqb].
    repeat (destruct (String.eqb _ sub);
            [intros E; inversion E; constructor|]).
    discriminate. }
  unfold enrichmentAnalysis. apply bind_preserves.
  - now rewrite baseGOids_store.
  - intros base s Hs. apply bind_preserves.
    + apply for_each_preserves; [|exact Hs].
      intros GOid s0. apply recursiveTester_wf.
    + intros _ s1 H1. exact H1.
Qed.

(** C9.  For a table whose ['pValues'] dictionary is [d], the corrector
    stores under ['corr'] a dictionary in which the term at position [i] of
    [d.keys()] is mapped to the value at position [i] of the corrected list,
    computed from [d.values()], whose position [i] holds that term's own
    p-value; with Bonferroni the corrected value of a term is its own p-value
    times the number of tests, capped at one. *)
Theorem multipleTestingCorrection_aligned :
  forall (testType : string) (threshold : Q) (s : store) (d : Dict.t Q),
    Dict.get (table s) "pValues" = Some d ->
    Dict.wf d ->
    exists s' corr,
      multipleTestingCorrection testType threshold s = (Ok tt, s') /\
      Dict.get (table s') "corr" = Some corr /\
      (forall i t,
          nth_error (Dict.keys d) i = Some t ->
          nth_error (Dict.values d) i = Dict.get d t /\
          Dict.get corr t =
            nth_error (snd (multipletests (Dict.values d) threshold
                                          (method_of testType))) i /\
          Dict.get corr t <> None) /\
      (testType = "bonferroni" ->
       forall t p,
         Dict.get d t = Some p ->
         Dict.get corr t = Some (clip1 (p * inject_Z (Dict.len d)))).
Proof.
  intros testType threshold s d Hd Hwf.
  rewrite multipleTestingCorrection_step, Hd, (corr_is_zip d _ _ Hwf).
  eexists. eexists. split; [reflexivity|]. simpl.
  split; [apply DictFacts.get_set_same|].
  assert (Halign : forall i t,
             nth_error (Dict.keys d) i = Some t ->
             Dict.get (combine (Dict.keys d)
                         (snd (multipletests (Dict.values d) threshold
                                             (method_of testType)))) t =
             nth_error (snd (multipletests (Dict.values d) threshold
                                           (method_of testType))) i).
  { intros i t Hi. now apply get_combine. }
  split.
  - intros i t Hi. split; [symmetry; now apply get_values_nth|].
    split; [now apply Halign|].
    rewrite (Halign i t Hi). apply nth_error_Some.
    rewrite length_multipletests. unfold Dict.values. rewrite length_map.
    assert (Hlt : (i < List.length (Dict.keys d))%nat)
      by (apply nth_error_Some; congruence).
    unfold Dict.keys in Hlt. now rewrite length_map in Hlt.
  - intros -> t p Hp.
    assert (Hin : In t (Dict.keys d))
      by (apply DictFacts.get_some_in; congruence).
    apply In_nth_error in Hin. destruct Hin as [i Hi].
    rewrite (Halign i t Hi).
    change (method_of "bonferroni") with "bonferroni".
    unfold multipletests, bonferroni. simpl.
    rewrite nth_error_map, <- (get_values_nth d i t Hwf Hi), Hp. simpl.
    unfold Dict.len, Dict.values. now rewrite length_map.
Qed.

(** The sample table with Benjamini-Hochberg: [root], second in the table,
    gets the second corrected value. *)
Lemma multipleTestingCorrection_aligned_sample :
  exists s' corr,
    multipleTestingCorrection "fdr" (1 # 20) sample_results = (Ok tt, s') /\
    Dict.get (table s') "corr" = Some corr /\
    Dict.get corr "root" =
      nth_error (snd (multipletests [1 # 3; 1 # 2] (1 # 20) "fdr_bh")) 1.
Proof.
  destruct (multipleTestingCorrection_aligned "fdr" (1 # 20) sample_results
              [("T", 1 # 3); ("root", 1 # 2)])
    as (s' & corr & Hrun & Hcorr & Halign & _).
  - reflexivity.
  - unfold Dict.wf. simpl. repeat constructor; simpl; intuition discriminate.
  - exists s', corr. split; [exact Hrun|]. split; [exact Hcorr|].
    exact (proj1 (proj2 (Halign 1%nat "root" eq_refl))).
Defined.

(** C10.  On a table that has a ['pValues'] dictionary, the corrector returns
    normally; afterwards ['corr'] holds a dictionary with the keys of
    ['pValues'] in the same order, every other sub-dictionary of the table,
    ['pValues'], ['interestCount'] and ['backgroundCount'] among them, is the
    one it was, and no item assignment was made in any sub-dictionary. *)
Theorem multipleTestingCorrection_frame :
  forall (testType : string) (threshold : Q) (s : store) (d : Dict.t Q),
    Dict.get (table s) "pValues" = Some d ->
    Dict.wf d ->
    exists s' corr,
      multipleTestingCorrection testType threshold s = (Ok tt, s') /\
      Dict.get (table s') "corr" = Some corr /\
      Dict.keys corr = Dict.keys d /\
      Dict.get (table s') "pValues" = Some d /\
      Dict.get (table s') "interestCount" =
        Dict.get (table s) "interestCount" /\
      Dict.get (table s') "backgroundCount" =
        Dict.get (table s) "backgroundCount" /\
      (forall sub, sub <> "corr" ->
                   Dict.get (table s') sub = Dict.get (table s) sub) /\
      assigned s' = assigned s.
Proof.
  intros testType threshold s d Hd Hwf.
  rewrite multipleTestingCorrection_step, Hd, (corr_is_zip d _ _ Hwf).
  eexists. eexists. split; [reflexivity|]. simpl.
  split; [apply DictFacts.get_set_same|].
  split.
  { apply keys_combine. rewrite length_multipletests.
    unfold Dict.keys, Dict.values. now rewrite !length_map. }
  assert (Hother : forall sub, sub <> "corr" ->
             Dict.get (Dict.set (table s) "corr"
                         (combine (Dict.keys d)
                            (snd (multipletests (Dict.values d) threshold
                                                (method_of testType))))) sub =
             Dict.get (table s) sub).
  { intros sub Hne. apply DictFacts.get_set_other. congruence. }
  split; [rewrite Hother by discriminate; exact Hd|].
  split; [apply Hother; discriminate|].
  split; [apply Hother; discriminate|].
  split; [exact Hother|reflexivity].
Qed.

(** The sample table with Bonferroni. *)
Lemma multipleTestingCorrection_frame_sample :
  exists s' corr,
    multipleTestingCorrection "bonferroni" (1 # 20) sample_results
      = (Ok tt, s') /\
    Dict.get (table s') "corr" = Some corr /\
    Dict.keys corr = ["T"; "root"] /\
    Dict.get (table s') "interestCount" =
      Some [("T", 2 # 1); ("root", 2 # 1)].
Proof.
  destruct (multipleTestingCorrection_frame "bonferroni" (1 # 20)
              sample_results [("T", 1 # 3); ("root", 1 # 2)])
    as (s' & corr & Hrun & Hcorr & Hkeys & _ & Hic & _).
  - reflexivity.
  - unfold Dict.wf. simpl. repeat constructor; simpl; intuition discriminate.
  - exists s', corr. repeat (split; [assumption|]).
    rewrite Hic. reflexivity.
Defined.

(** ** The hypergeometric test *)

Lemma binom_0_r n : binom n 0 = 1%nat.
Proof. destruct n; reflexivity. Qed.

Lemma binom_gt n : forall k, (n < k)%nat -> binom n k = 0%nat.
Proof.
  induction n as [|n IH]; intros [|k] H; simpl; try lia.
  rewrite !IH by lia. reflexivity.
Qed.

Lemma binom_pos n : forall k, (k <= n)%nat -> (0 < binom n k)%nat.
Proof.
  induction n as [|n IH]; intros [|k] H; simpl; try lia.
  assert (0 < binom n k)%nat by (apply IH; lia). lia.
Qed.

Lemma list_sum_map_add (f g : nat -> nat) l :
  list_sum (map (fun j => f j + g j)%nat l) =
  (list_sum (map f l) + list_sum (map g l))%nat.
Proof.
  induction l as [|x l IH]; simpl; [reflexivity|]. rewrite IH. lia.
Qed.

Lemma list_sum_map_zero (f : nat -> nat) l :
  (forall j, In j l -> f j = 0%nat) -> list_sum (map f l) = 0%nat.
Proof.
  induction l as [|x l IH]; intros H; simpl; [reflexivity|].
  rewrite (H x (or_introl eq_refl)), IH; [reflexivity|].
  intros j Hj. apply H. now right.
Qed.

Lemma list_sum_seq_front (f : nat -> nat) len :
  list_sum (map f (seq 0 (S len))) =
  (f 0%nat + list_sum (map (fun j => f (S j)) (seq 0 len)))%nat.
Proof.
  simpl. now rewrite <- seq_shift, map_map.
Qed.

(** Vandermonde's identity. *)
Lemma vandermonde n :
  forall m N,
    list_sum (map (fun j => binom n j * binom m (N - j))%nat (seq 0 (S N))) =
    binom (n + m) N.
Proof.
  induction n as [|n IH]; intros m N.
  - rewrite list_sum_seq_front, list_sum_map_zero by reflexivity.
    simpl. rewrite Nat.sub_0_r. lia.
  - destruct N as [|N].
    { cbn [seq map list_sum Nat.sub]. now rewrite !binom_0_r. }
    rewrite list_sum_seq_front.
    rewrite (map_ext _ (fun j => binom n j * binom m (N - j)
                                 + binom n (S j) * binom m (N - j))%nat)
      by (intros j; simpl; lia).
    rewrite list_sum_map_add, IH.
    pose proof (IH m (S N)) as H. rewrite list_sum_seq_front in H.
    rewrite binom_0_r in H. simpl Nat.sub in H.
    rewrite binom_0_r. simpl (S n + m)%nat. simpl (binom (S _) (S _)).
    simpl Nat.sub. lia.
Qed.

Lemma comb_binom n k :
  0 <= n -> 0 <= k ->
  comb n k = Z.of_nat (binom (Z.to_nat n) (Z.to_nat k)).
Proof.
  intros Hn Hk. unfold comb.
  destruct (Z.ltb_spec k 0); [lia|].
  destruct (Z.ltb_spec n k); [|reflexivity]. simpl.
  rewrite binom_gt by lia. reflexivity.
Qed.

Lemma fold_pmf (g : nat -> Z) (c : Q) (l : list nat) :
  forall acc : Q,
    (fold_left (fun acc j => acc + inject_Z (g j) / c) l acc ==
     acc + inject_Z (fold_right (fun j z => (g j + z)%Z) 0%Z l) / c)%Q.
Proof.
  induction l as [|x l IH]; intros acc; simpl.
  - unfold Qdiv. change (inject_Z 0) with 0%Q. ring.
  - rewrite IH, inject_Z_plus. unfold Qdiv. ring.
Qed.

Lemma fold_right_of_nat (f : nat -> nat) (g : nat -> Z) l :
  (forall j, In j l -> g j = Z.of_nat (f j)) ->
  fold_right (fun j z => g j + z) 0 l = Z.of_nat (list_sum (map f l)).
Proof.
  induction l as [|x l IH]; intros H; simpl; [reflexivity|].
  rewrite IH by (intros j Hj; apply H; now right).
  rewrite (H x (or_introl eq_refl)). lia.
Qed.

(** The masses of [0 .. N] add up to one. *)
Lemma hypergeom_cdf_total M n N :
  0 <= n <= M -> 0 <= N <= M ->
  (hypergeom_cdf N M n N == 1)%Q.
Proof.
  intros Hn HN. unfold hypergeom_cdf.
  destruct (Z.ltb_spec N 0); [lia|].
  unfold hypergeom_pmf.
  rewrite (fold_pmf (fun j => comb n (Z.of_nat j) * comb (M - n) (N - Z.of_nat j))
                    (inject_Z (comb M N))).
  rewrite (fold_right_of_nat
             (fun j => binom (Z.to_nat n) j
                       * binom (Z.to_nat (M - n)) (Z.to_nat N - j))%nat).
  - rewrite vandermonde.
    replace (Z.to_nat n + Z.to_nat (M - n))%nat with (Z.to_nat M) by lia.
    rewrite comb_binom by lia.
    assert (Hpos : (0 < binom (Z.to_nat M) (Z.to_nat N))%nat)
      by (apply binom_pos; lia).
    rewrite Qplus_0_l. apply Qmult_inv_r.
    intros Hz. unfold Qeq in Hz. simpl in Hz. lia.
  - intros j Hj. apply in_seq in Hj.
    unfold comb at 2.
    destruct (Z.ltb_spec (N - Z.of_nat j) 0); [lia|].
    rewrite comb_binom by lia. simpl orb.
    destruct (Z.ltb_spec (M - n) (N - Z.of_nat j)).
    + rewrite (binom_gt (Z.to_nat (M - n))) by lia. lia.
    + rewrite Nat2Z.id.
      replace (Z.to_nat (N - Z.of_nat j)) with (Z.to_nat N - j)%nat by lia.
      lia.
Qed.

(** C8.  With no success in the subset the returned p-value is exactly one,
    whatever the other three counts: the survival function is taken at
    [-1], below the support, where the cumulative distribution is zero.  For
    valid counts this is the whole mass of the distribution, which is one:
    the masses of [0 .. subsetTotal] add up to one. *)
Theorem enrichmentOneSided_zero_successes :
  forall backgroundTotal backgroundGO subsetTotal : Z,
    0 <= backgroundGO <= backgroundTotal ->
    0 <= subsetTotal <= backgroundTotal ->
    enrichmentOneSided 0 backgroundTotal backgroundGO subsetTotal = 1%Q /\
    hypergeom_cdf (0 - 1) backgroundTotal backgroundGO subsetTotal = 0%Q /\
    (hypergeom_cdf subsetTotal backgroundTotal backgroundGO subsetTotal
     == 1)%Q.
Proof.
  intros M n N Hn HN. split; [reflexivity|]. split; [reflexivity|].
  now apply hypergeom_cdf_total.
Qed.

(** Ten genes, four of them with the term, three drawn. *)
Lemma enrichmentOneSided_zero_successes_sample :
  enrichmentOneSided 0 10 4 3 = 1%Q.
Proof.
  apply (enrichmentOneSided_zero_successes 10 4 3); lia.
Defined.

(** Benjamini-Hochberg on three p-values given out of order: each corrected
    value stands at the position of the p-value it belongs to. *)
Example fdr_bh_worked :
  map Qred (snd (fdr_bh [1 # 100; 4 # 100; 3 # 100] (1 # 20))) =
  [3 # 100; 1 # 25; 1 # 25].
Proof. vm_compute. reflexivity. Qed.

(** The worked example of the documentation: two or more successes in three
    draws from ten holding four has probability one third. *)
Example enrichmentOneSided_worked :
  (enrichmentOneSided 2 10 4 3 == 1 # 3)%Q.
Proof. vm_compute. reflexivity. Qed.

(** * Further properties *)

(** ** Association counting *)

Lemma isdisjoint_false_iff a b :
  isdisjoint a b = false <-> exists x, In x a /\ In x b.
Proof.
  unfold isdisjoint. rewrite negb_false_iff, existsb_exists.
  split; intros (x & H1 & H2); exists x; split; auto;
    now apply mem_str_iff.
Qed.

Lemma associated_iff validTerms item :
  associated validTerms item = true <->
  exists x, In x validTerms /\ In x (snd item).
Proof.
  unfold associated. rewrite negb_true_iff. apply isdisjoint_false_iff.
Qed.

(** The counter is the number of entries whose gene is associated. *)
Lemma countGOassociations_filter validTerms gafDict :
  countGOassociations validTerms gafDict =
  Z.of_nat (List.length (filter (associated validTerms) (Dict.items gafDict))).
Proof.
  unfold countGOassociations, Dict.items.
  assert (H : forall l acc,
             fold_left
               (fun GOcounter item =>
                  if negb (isdisjoint validTerms (snd item)) then GOcounter + 1
                  else GOcounter) l acc =
             acc + Z.of_nat (List.length (filter (associated validTerms) l))).
  { induction l as [|item l IH]; intros acc; cbn [fold_left filter];
      [simpl; lia|].
    rewrite IH.
    change (negb (isdisjoint validTerms (snd item)))
      with (associated validTerms item).
    destruct (associated validTerms item); cbn [List.length]; lia. }
  rewrite H. lia.
Qed.

(** X1.  The count lies between zero and the number of genes of the map; it
    is zero exactly when no gene of the map carries a valid term (so for an
    empty set of valid terms and for an empty map), and it is the number of
    genes exactly when every gene carries one. *)
Theorem countGOassociations_bounds :
  forall (validTerms : list term) (gafDict : Dict.t (list term)),
    0 <= countGOassociations validTerms gafDict <= Dict.len gafDict /\
    (countGOassociations validTerms gafDict = 0 <->
     forall gene GOids x,
       In (gene, GOids) (Dict.items gafDict) -> In x validTerms ->
       ~ In x GOids) /\
    (countGOassociations validTerms gafDict = Dict.len gafDict <->
     forall gene GOids,
       In (gene, GOids) (Dict.items gafDict) ->
       exists x, In x validTerms /\ In x GOids) /\
    countGOassociations [] gafDict = 0 /\
    countGOassociations validTerms Dict.empty = 0.
Proof.
  intros validTerms gafDict. rewrite !countGOassociations_filter.
  unfold Dict.len, Dict.items.
  pose proof (List.filter_length_le (associated validTerms) gafDict) as Hle.
  split; [lia|]. split; [|split; [|split]].
  - split.
    + intros H gene GOids x Hin Hx HG.
      assert (Hnil : filter (associated validTerms) gafDict = []).
      { apply length_zero_iff_nil. lia. }
      assert (Hf : In (gene, GOids) (filter (associated validTerms) gafDict)).
      { apply filter_In. split; [assumption|].
        apply associated_iff. exists x. auto. }
      rewrite Hnil in Hf. contradiction.
    + intros H.
      assert (Hnil : filter (associated validTerms) gafDict = []).
      { destruct (filter (associated validTerms) gafDict) as [|[gene GOids] l]
          eqn:E; [reflexivity|].
        assert (Hin : In (gene, GOids) (filter (associated validTerms) gafDict))
          by (rewrite E; now left).
        apply filter_In in Hin. destruct Hin as [Hin Ha].
        apply associated_iff in Ha. destruct Ha as (x & Hx & HG).
        exfalso. eapply H; eauto. }
      now rewrite Hnil.
  - split.
    + intros H gene GOids Hin.
      assert (Hlen : List.length (filter (associated validTerms) gafDict)
                     = List.length gafDict) by lia.
      apply filter_length_forallb in Hlen.
      rewrite forallb_forall in Hlen.
      apply (associated_iff validTerms (gene, GOids)). now apply Hlen.
    + intros H. f_equal. f_equal. apply forallb_filter_id.
      apply forallb_forall. intros [gene GOids] Hin.
      apply associated_iff. eapply H; eauto.
  - assert (Hnil : forall l : list (string * list term),
               filter (associated []) l = [])
      by (induction l; simpl; auto).
    now rewrite Hnil.
  - reflexivity.
Qed.

(** X2.  The count grows with the set of valid terms: counting with a set
    that contains another gives at least the count of the other.  So a term
    whose recursive children include a second term and its recursive
    children has at least the background count of the second. *)
Theorem countGOassociations_monotone :
  forall (validTerms validTerms' : list term) (gafDict : Dict.t (list term)),
    incl validTerms validTerms' ->
    countGOassociations validTerms gafDict <=
    countGOassociations validTerms' gafDict.
Proof.
  intros vt vt' gafDict Hincl. rewrite !countGOassociations_filter.
  apply Nat2Z.inj_le. apply filter_length_mono.
  intros item _ H. apply associated_iff in H. apply associated_iff.
  destruct H as (x & Hx & HG). exists x. auto.
Qed.

(** In the chain, [root] with its child counts at least what [T] counts. *)
Lemma countGOassociations_monotone_chain :
  countGOassociations ["T"] chain_background <=
  countGOassociations ["root"; "T"] chain_background.
Proof.
  apply countGOassociations_monotone.
  intros x [<-|[]]. right. now left.
Defined.

(** X3.  When every entry of the subset map is an entry of the background
    map, the subset has at most as many genes as the background, and for
    every set of valid terms the subset count is at most the background
    count and at most the number of subset genes: the four counts handed to
    the hypergeometric test are then consistent. *)
Theorem countGOassociations_subset_map :
  forall (validTerms : list term) (gafDict gafSubset : Dict.t (list term)),
    Dict.wf gafSubset ->
    incl (Dict.items gafSubset) (Dict.items gafDict) ->
    Dict.len gafSubset <= Dict.len gafDict /\
    countGOassociations validTerms gafSubset <=
      countGOassociations validTerms gafDict /\
    countGOassociations validTerms gafSubset <= Dict.len gafSubset /\
    countGOassociations validTerms gafDict <= Dict.len gafDict.
Proof.
  intros vt gafDict gafSubset Hwf Hincl.
  assert (Hnd : NoDup gafSubset) by (eapply NoDup_map_inv; exact Hwf).
  unfold Dict.items in Hincl.
  split; [|split; [|split]].
  - unfold Dict.len. apply Nat2Z.inj_le. now apply NoDup_incl_length.
  - rewrite !countGOassociations_filter. apply Nat2Z.inj_le.
    apply NoDup_incl_length; [now apply NoDup_filter|].
    intros item Hin. apply filter_In in Hin. apply filter_In.
    destruct Hin as [Hin Ha]. split; [now apply Hincl|assumption].
  - rewrite countGOassociations_filter. unfold Dict.len, Dict.items.
    apply Nat2Z.inj_le. apply List.filter_length_le.
  - rewrite countGOassociations_filter. unfold Dict.len, Dict.items.
    apply Nat2Z.inj_le. apply List.filter_length_le.
Qed.

(** Two of the three genes of a small background as the subset. *)
Lemma countGOassociations_subset_map_small :
  countGOassociations ["T"] small_subset <=
  countGOassociations ["T"] small_background.
Proof.
  apply (countGOassociations_subset_map ["T"] small_background small_subset).
  - unfold Dict.wf. simpl. repeat constructor; simpl; intuition discriminate.
  - intros item [<-|[<-|[]]]; simpl; tauto.
Defined.

(** ** The hypergeometric p-value *)

Lemma zsum_app g l l' : zsum g (l ++ l') = zsum g l + zsum g l'.
Proof.
  unfold zsum. induction l as [|x l IH]; simpl; [reflexivity|].
  rewrite IH. lia.
Qed.

Lemma zsum_nonneg g l : (forall j, In j l -> 0 <= g j) -> 0 <= zsum g l.
Proof.
  unfold zsum. induction l as [|x l IH]; intros H; simpl; [lia|].
  assert (0 <= g x) by (apply H; now left).
  assert (0 <= fold_right (fun j z => g j + z) 0 l)
    by (apply IH; intros j Hj; apply H; now right).
  lia.
Qed.

Lemma zsum_zero g l : (forall j, In j l -> g j = 0) -> zsum g l = 0.
Proof.
  unfold zsum. induction l as [|x l IH]; intros H; simpl; [reflexivity|].
  rewrite (H x (or_introl eq_refl)), IH; [reflexivity|].
  intros j Hj. apply H. now right.
Qed.

Lemma comb_nonneg n k : 0 <= comb n k.
Proof.
  unfold comb. destruct ((k <? 0) || (n <? k))%bool; lia.
Qed.

Lemma mass_num_nonneg M n N j : 0 <= mass_num M n N j.
Proof.
  unfold mass_num. apply Z.mul_nonneg_nonneg; apply comb_nonneg.
Qed.

Lemma mass_num_beyond M n N j : N < Z.of_nat j -> mass_num M n N j = 0.
Proof.
  intros H. unfold mass_num, comb at 2.
  destruct (Z.ltb_spec (N - Z.of_nat j) 0); [simpl; lia|lia].
Qed.

(** The numerators of the masses of [0 .. N] add up to the denominator. *)
Lemma mass_num_total M n N :
  0 <= n <= M -> 0 <= N <= M ->
  zsum (mass_num M n N) (seq 0 (S (Z.to_nat N))) = comb M N /\ 0 < comb M N.
Proof.
  intros Hn HN. unfold zsum.
  rewrite (fold_right_of_nat
             (fun j => binom (Z.to_nat n) j
                       * binom (Z.to_nat (M - n)) (Z.to_nat N - j))%nat).
  - rewrite vandermonde.
    replace (Z.to_nat n + Z.to_nat (M - n))%nat with (Z.to_nat M) by lia.
    rewrite comb_binom by lia.
    assert (Hpos : (0 < binom (Z.to_nat M) (Z.to_nat N))%nat)
      by (apply binom_pos; lia).
    lia.
  - intros j Hj. apply in_seq in Hj. unfold mass_num.
    unfold comb at 2.
    destruct (Z.ltb_spec (N - Z.of_nat j) 0); [lia|].
    rewrite comb_binom by lia. simpl orb.
    destruct (Z.ltb_spec (M - n) (N - Z.of_nat j)).
    + rewrite (binom_gt (Z.to_nat (M - n))) by lia. lia.
    + rewrite Nat2Z.id.
      replace (Z.to_nat (N - Z.of_nat j)) with (Z.to_nat N - j)%nat by lia.
      lia.
Qed.

(** A sum of masses, as a fraction. *)
Lemma fold_mass M n N l :
  (fold_left (fun acc j => acc + hypergeom_pmf (Z.of_nat j) M n N) l 0 ==
   inject_Z (zsum (mass_num M n N) l) / inject_Z (comb M N))%Q.
Proof.
  unfold hypergeom_pmf.
  rewrite (fold_pmf (mass_num M n N) (inject_Z (comb M N)) l 0%Q).
  apply Qplus_0_l.
Qed.

(** The numerators of the masses of [0 .. m] lie between zero and the
    denominator. *)
Lemma mass_num_partial M n N m :
  0 <= n <= M -> 0 <= N <= M ->
  0 <= zsum (mass_num M n N) (seq 0 (S m)) <= comb M N.
Proof.
  intros Hn HN.
  destruct (mass_num_total M n N Hn HN) as [Htot _].
  split; [apply zsum_nonneg; intros; apply mass_num_nonneg|].
  destruct (Nat.le_gt_cases m (Z.to_nat N)) as [Hle|Hgt].
  - replace (S (Z.to_nat N)) with (S m + (Z.to_nat N - m))%nat in Htot by lia.
    rewrite seq_app, zsum_app in Htot.
    assert (0 <= zsum (mass_num M n N) (seq (0 + S m) (Z.to_nat N - m)))
      by (apply zsum_nonneg; intros; apply mass_num_nonneg).
    lia.
  - replace (S m) with (S (Z.to_nat N) + (m - Z.to_nat N))%nat by lia.
    rewrite seq_app, zsum_app, Htot, zsum_zero; [lia|].
    intros j Hj. apply in_seq in Hj. apply mass_num_beyond. lia.
Qed.

(** X4.  For counts that are consistent with each other (the term's
    background count and the subset size both between zero and the
    background size), the p-value is a probability for every value of
    [subsetGO], negative or beyond the subset size included. *)
Theorem enrichmentOneSided_probability :
  forall subsetGO backgroundTotal backgroundGO subsetTotal : Z,
    0 <= backgroundGO <= backgroundTotal ->
    0 <= subsetTotal <= backgroundTotal ->
    (0 <= enrichmentOneSided subsetGO backgroundTotal backgroundGO subsetTotal
     <= 1)%Q.
Proof.
  intros k M n N Hn HN.
  unfold enrichmentOneSided, hypergeom_sf, hypergeom_cdf. cbv zeta.
  destruct (Z.ltb_spec (k - 1) 0) as [Hneg|Hpos]; [lra|].
  rewrite fold_mass.
  destruct (mass_num_total M n N Hn HN) as [_ Hc].
  pose proof (mass_num_partial M n N (Z.to_nat (k - 1)) Hn HN) as [H0 H1].
  set (S1 := zsum (mass_num M n N) (seq 0 (S (Z.to_nat (k - 1))))) in *.
  assert (Hq : (0 < inject_Z (comb M N))%Q)
    by (change 0%Q with (inject_Z 0); now rewrite <- Zlt_Qlt).
  assert (Hlo : (0 <= inject_Z S1 / inject_Z (comb M N))%Q).
  { apply Qle_shift_div_l; [assumption|]. rewrite Qmult_0_l.
    change 0%Q with (inject_Z 0). now rewrite <- Zle_Qle. }
  assert (Hhi : (inject_Z S1 / inject_Z (comb M N) <= 1)%Q).
  { apply Qle_shift_div_r; [assumption|]. rewrite Qmult_1_l.
    now rewrite <- Zle_Qle. }
  lra.
Qed.

(** Ten genes, four with the term, three drawn, five claimed successes. *)
Lemma enrichmentOneSided_probability_sample :
  (0 <= enrichmentOneSided 5 10 4 3 <= 1)%Q.
Proof.
  apply enrichmentOneSided_probability; lia.
Defined.

(** X5.  For consistent counts and [0 <= subsetGO <= subsetTotal] the
    p-value is the probability of [subsetGO] or more successes: the masses
    of [subsetGO .. subsetTotal] added up, as the docstring says. *)
Theorem enrichmentOneSided_tail :
  forall subsetGO backgroundTotal backgroundGO subsetTotal : Z,
    0 <= backgroundGO <= backgroundTotal ->
    0 <= subsetTotal <= backgroundTotal ->
    0 <= subsetGO <= subsetTotal ->
    (enrichmentOneSided subsetGO backgroundTotal backgroundGO subsetTotal ==
     hypergeom_tail subsetGO backgroundTotal backgroundGO subsetTotal)%Q.
Proof.
  intros k M n N Hn HN Hk.
  destruct (mass_num_total M n N Hn HN) as [Htot Hc].
  assert (Hq : ~ (inject_Z (comb M N) == 0)%Q).
  { intros Hz. unfold Qeq in Hz. simpl in Hz. lia. }
  unfold hypergeom_tail. rewrite fold_mass.
  unfold enrichmentOneSided, hypergeom_sf, hypergeom_cdf. cbv zeta.
  replace (S (Z.to_nat N)) with (Z.to_nat k + (S (Z.to_nat N) - Z.to_nat k))%nat
    in Htot by lia.
  rewrite seq_app, zsum_app in Htot. simpl (0 + Z.to_nat k)%nat in Htot.
  set (S2 := zsum (mass_num M n N)
                  (seq (Z.to_nat k) (S (Z.to_nat N) - Z.to_nat k))) in *.
  destruct (Z.ltb_spec (k - 1) 0) as [Hneg|Hpos].
  - replace (Z.to_nat k) with 0%nat in Htot by lia. simpl in Htot.
    rewrite Htot. transitivity 1%Q; [ring|].
    symmetry. apply Qmult_inv_r. exact Hq.
  - rewrite fold_mass.
    replace (S (Z.to_nat (k - 1))) with (Z.to_nat k) by lia.
    set (S1 := zsum (mass_num M n N) (seq 0 (Z.to_nat k))) in *.
    assert (E : (inject_Z (comb M N) == inject_Z S1 + inject_Z S2)%Q)
      by (rewrite <- inject_Z_plus, Htot; reflexivity).
    unfold Qdiv.
    setoid_replace 1%Q
      with (inject_Z (comb M N) * / inject_Z (comb M N))%Q
      by (symmetry; apply Qmult_inv_r; exact Hq).
    rewrite E at 1. ring.
Qed.

(** The worked example: two or more successes are two or three. *)
Lemma enrichmentOneSided_tail_sample :
  (enrichmentOneSided 2 10 4 3 == hypergeom_tail 2 10 4 3)%Q.
Proof.
  apply enrichmentOneSided_tail; lia.
Defined.

(** ** Invariants of the result table *)

Lemma record_result_table s k p a b d1 d2 d3 :
  Dict.get (table s) "pValues" = Some d1 ->
  Dict.get (table s) "interestCount" = Some d2 ->
  Dict.get (table s) "backgroundCount" = Some d3 ->
  record_result k p a b s =
  (Ok tt,
   {| table :=
        Dict.set
          (Dict.set (Dict.set (table s) "pValues" (Dict.set d1 k p))
                    "interestCount" (Dict.set d2 k a))
          "backgroundCount" (Dict.set d3 k b);
      assigned :=
        ((assigned s ++ [("pValues", k)]) ++ [("interestCount", k)])
        ++ [("backgroundCount", k)] |}).
Proof.
  intros H1 H2 H3. unfold record_result, bind.
  rewrite setitem_eq, H1, setitem_eq. cbn [table assigned].
  rewrite DictFacts.get_set_other, H2 by discriminate.
  rewrite setitem_eq. cbn [table assigned].
  rewrite !DictFacts.get_set_other, H3 by discriminate.
  reflexivity.
Qed.

Section TableInvariants.

Variables backgroundTotal subsetTotal : Z.
Variable GOdict : Dict.t GOterm.
Variables gafDict gafSubset : Dict.t (list term).
Variable minGenes : Z.
Variable threshold : Q.

Let tester : nat -> term -> M unit :=
  recursiveTester backgroundTotal subsetTotal GOdict gafDict gafSubset
                  minGenes threshold.

(** A property of stores that holds of well-formed tables only and survives
    the recording of a test survives every call. *)
Lemma recursiveTester_invariant (Inv : store -> Prop) :
  (forall s, Inv s -> table_ok s) ->
  (forall s GOid t s1,
      Inv s -> ~ recorded s GOid -> Dict.get GOdict GOid = Some t ->
      ~ countGOassociations (GOid :: recursive_children t) gafDict < minGenes ->
      record_result GOid
        (enrichmentOneSided
           (countGOassociations (GOid :: recursive_children t) gafSubset)
           backgroundTotal
           (countGOassociations (GOid :: recursive_children t) gafDict)
           subsetTotal)
        (inject_Z (countGOassociations (GOid :: recursive_children t) gafSubset))
        (inject_Z (countGOassociations (GOid :: recursive_children t) gafDict))
        s = (Ok tt, s1) ->
      Inv s1) ->
  forall fuel GOid s, Inv s -> Inv (snd (tester fuel GOid s)).
Proof.
  intros Hok Hrec. induction fuel as [|fuel IH]; intros GOid s Hs;
    [exact Hs|].
  unfold tester. rewrite recursiveTester_step. fold tester.
  destruct (Dict.get (table s) "pValues") as [pValues|] eqn:Epv;
    [|exact Hs].
  destruct (Dict.mem pValues GOid) eqn:Emem; [exact Hs|].
  destruct (Dict.get GOdict GOid) as [t|] eqn:Et; [|exact Hs].
  cbv zeta.
  destruct (Z.ltb_spec (countGOassociations (GOid :: recursive_children t) gafDict)
                       minGenes) as [Hlow|Hge].
  { now apply for_each_preserves. }
  assert (Hnr : ~ recorded s GOid).
  { rewrite recorded_iff. intros (d & Hd & Hm). congruence. }
  unfold bind.
  match goal with
  | |- context [record_result ?k ?p ?a ?b s] =>
      destruct (record_result_ok s k p a b (Hok s Hs)) as (s1 & E1 & _)
  end.
  rewrite E1.
  assert (H1 : Inv s1).
  { eapply Hrec; eauto. now apply Z.le_ngt. }
  destruct (Qgtb _ threshold); [|exact H1].
  now apply for_each_preserves.
Qed.

(** Every recorded term has the entries its own counts give. *)
Lemma recursiveTester_entries fuel GOid s :
  (table_ok s /\
   forall k, recorded s k ->
     entries_of backgroundTotal subsetTotal GOdict gafDict gafSubset minGenes
                s k) ->
  let s' := snd (tester fuel GOid s) in
  table_ok s' /\
  forall k, recorded s' k ->
    entries_of backgroundTotal subsetTotal GOdict gafDict gafSubset minGenes
               s' k.
Proof.
  apply (recursiveTester_invariant
           (fun s => table_ok s /\
                     forall k, recorded s k ->
                       entries_of backgroundTotal subsetTotal GOdict gafDict
                                  gafSubset minGenes s k)).
  - tauto.
  - clear GOid s. intros s GOid t s1 [Hok Hs] Hnr Ht Hge E.
    match type of E with
    | record_result ?k ?p ?a ?b s = _ =>
        destruct (record_result_ok s k p a b Hok)
          as (s1' & E' & _ & F & P1 & P2 & P3 & S)
    end.
    rewrite E in E'. inversion E'; subst s1'. clear E'.
    split.
    { destruct Hok as (H1 & H2 & H3). unfold table_ok. rewrite !S. auto. }
    intros k Hk. destruct (string_dec k GOid) as [->|Hne].
    + exists t. split; [assumption|]. cbv zeta. auto.
    + assert (Hk' : recorded s k) by (unfold recorded in *; now rewrite <- F).
      destruct (Hs k Hk') as (t' & Ht' & Hge' & Q1 & Q2 & Q3).
      exists t'. split; [assumption|]. cbv zeta in *.
      rewrite !F by assumption. auto.
Qed.

(** The three sub-dictionaries keep the same keys in the same order. *)
Lemma recursiveTester_aligned fuel GOid s :
  aligned s -> aligned (snd (tester fuel GOid s)).
Proof.
  apply (recursiveTester_invariant aligned).
  - clear. intros s (d1 & d2 & d3 & H1 & H2 & H3 & _).
    unfold table_ok. rewrite H1, H2, H3. repeat split; discriminate.
  - clear GOid s. intros s GOid t s1 (d1 & d2 & d3 & H1 & H2 & H3 & K2 & K3)
                          Hnr Ht Hge E.
    rewrite (record_result_table s GOid _ _ _ d1 d2 d3 H1 H2 H3) in E.
    inversion E; subst s1. clear E.
    assert (N1 : Dict.get d1 GOid = None).
    { destruct (Dict.get d1 GOid) eqn:G; [|reflexivity].
      exfalso. apply Hnr. unfold recorded, entry. rewrite H1, G. discriminate. }
    assert (N2 : Dict.get d2 GOid = None).
    { apply DictFacts.get_none_iff. rewrite K2.
      now apply DictFacts.get_none_iff. }
    assert (N3 : Dict.get d3 GOid = None).
    { apply DictFacts.get_none_iff. rewrite K3.
      now apply DictFacts.get_none_iff. }
    eexists _, _, _. cbn [table].
    split; [rewrite !DictFacts.get_set_other by discriminate;
            apply DictFacts.get_set_same|].
    split; [rewrite DictFacts.get_set_other by discriminate;
            apply DictFacts.get_set_same|].
    split; [apply DictFacts.get_set_same|].
    rewrite !DictFacts.keys_set_new by assumption.
    split; congruence.
Qed.

(** The table keeps its three sub-dictionaries, and no other. *)
Lemma recursiveTester_table_keys fuel GOid s :
  (table_ok s /\ Dict.keys (table s) = Dict.keys (table new_results)) ->
  let s' := snd (tester fuel GOid s) in
  table_ok s' /\ Dict.keys (table s') = Dict.keys (table new_results).
Proof.
  apply (recursiveTester_invariant
           (fun s => table_ok s /\
                     Dict.keys (table s) = Dict.keys (table new_results))).
  - tauto.
  - clear GOid s. intros s GOid t s1 [Hok Hk] Hnr Ht Hge E.
    pose proof Hok as (H1 & H2 & H3).
    destruct (Dict.get (table s) "pValues") as [d1|] eqn:E1; [|congruence].
    destruct (Dict.get (table s) "interestCount") as [d2|] eqn:E2;
      [|congruence].
    destruct (Dict.get (table s) "backgroundCount") as [d3|] eqn:E3;
      [|congruence].
    rewrite (record_result_table s GOid _ _ _ d1 d2 d3 E1 E2 E3) in E.
    inversion E; subst s1. clear E. cbn [table]. split.
    + unfold table_ok. cbn [table].
      rewrite !DictFacts.get_set_other by discriminate.
      rewrite !DictFacts.get_set_same.
      rewrite DictFacts.get_set_other by discriminate.
      rewrite DictFacts.get_set_same. repeat split; discriminate.
    + rewrite !DictFacts.keys_set_old; [assumption|congruence| |].
      * rewrite DictFacts.get_set_other, E2 by discriminate. discriminate.
      * rewrite !DictFacts.get_set_other, E3 by discriminate. discriminate.
Qed.

End TableInvariants.

Lemma aligned_new_results : aligned new_results.
Proof.
  exists Dict.empty, Dict.empty, Dict.empty. simpl. auto.
Qed.

Lemma enrichmentAnalysis_preserves (Inv : store -> Prop) fuel GOdict gafDict
    gafSubset minGenes threshold :
  Inv new_results ->
  (forall GOid s,
      Inv s ->
      Inv (snd (recursiveTester (Dict.len gafDict) (Dict.len gafSubset) GOdict
                                gafDict gafSubset minGenes threshold fuel GOid
                                s))) ->
  Inv (snd (enrichmentAnalysis fuel GOdict gafDict gafSubset minGenes
                               threshold)).
Proof.
  intros Hnew Hstep. unfold enrichmentAnalysis. apply bind_preserves.
  - now rewrite baseGOids_store.
  - intros base s Hs. apply bind_preserves.
    + now apply for_each_preserves.
    + intros _ s1 H1. exact H1.
Qed.

(** X6.  Whatever way a run of the analysis ends, every term that has a
    p-value in the table is a term of the hierarchy whose background count
    over itself and its recursive children reaches [minGenes], and its three
    entries are the ones its own counts give: the p-value of the
    hypergeometric test on its subset count, the number of background
    genes, its background count and the number of subset genes, and the two
    counts themselves. *)
Theorem enrichmentAnalysis_entries :
  forall (fuel : nat) (GOdict : Dict.t GOterm)
         (gafDict gafSubset : Dict.t (list term)) (minGenes : Z)
         (threshold : Q) (k : term),
    recorded (snd (enrichmentAnalysis fuel GOdict gafDict gafSubset minGenes
                                      threshold)) k ->
    entries_of (Dict.len gafDict) (Dict.len gafSubset) GOdict gafDict gafSubset
               minGenes
               (snd (enrichmentAnalysis fuel GOdict gafDict gafSubset minGenes
                                        threshold)) k.
Proof.
  intros fuel GOdict gafDict gafSubset minGenes threshold.
  apply (enrichmentAnalysis_preserves
           (fun s => table_ok s /\
                     forall k, recorded s k ->
                       entries_of (Dict.len gafDict) (Dict.len gafSubset)
                                  GOdict gafDict gafSubset minGenes s k)).
  - split; [apply table_ok_new_results|].
    intros k Hk. exfalso. apply Hk. reflexivity.
  - intros GOid s Hs. now apply recursiveTester_entries.
Qed.

(** The chain: [T] is tested, and its entries are those of two subset genes
    out of three and four background genes out of ten. *)
Lemma enrichmentAnalysis_entries_chain :
  entries_of 10 3 chain chain_background chain_subset 3
             (snd (enrichmentAnalysis 3 chain chain_background chain_subset 3
                                      (1 # 20))) "T".
Proof.
  apply (enrichmentAnalysis_entries 3 chain chain_background chain_subset 3
           (1 # 20) "T").
  vm_compute. discriminate.
Defined.

(** X7.  Whatever way a run of the analysis ends, the table it leaves has
    exactly the sub-dictionaries ['pValues'], ['interestCount'] and
    ['backgroundCount'], the three hold the same keys in the same order,
    and no key occurs twice. *)
Theorem enrichmentAnalysis_aligned :
  forall (fuel : nat) (GOdict : Dict.t GOterm)
         (gafDict gafSubset : Dict.t (list term)) (minGenes : Z)
         (threshold : Q),
    Dict.keys (table (snd (enrichmentAnalysis fuel GOdict gafDict gafSubset
                                              minGenes threshold))) =
      ["pValues"; "interestCount"; "backgroundCount"] /\
    aligned (snd (enrichmentAnalysis fuel GOdict gafDict gafSubset minGenes
                                     threshold)) /\
    subdicts_wf (snd (enrichmentAnalysis fuel GOdict gafDict gafSubset
                                         minGenes threshold)).
Proof.
  intros fuel GOdict gafDict gafSubset minGenes threshold.
  split; [|split].
  - apply (enrichmentAnalysis_preserves
             (fun s => table_ok s /\
                       Dict.keys (table s) = Dict.keys (table new_results))).
    + split; [apply table_ok_new_results|reflexivity].
    + intros GOid s Hs. now apply recursiveTester_table_keys.
  - apply (enrichmentAnalysis_preserves aligned);
      [apply aligned_new_results|].
    intros GOid s Hs. now apply recursiveTester_aligned.
  - apply enrichmentAnalysis_wf.
Qed.

(** ** Exceptions *)


Lemma ancestors_of_unknown GOdict ids s :
  (exists GOid, In GOid ids /\ Dict.get GOdict GOid = None) ->
  exists k, In k ids /\ Dict.get GOdict k = None /\
            ancestors_of GOdict ids s = (Raised (KeyError k), s).
Proof.
  induction ids as [|GOid ids IH]; intros (g & Hin & Hg); [contradiction|].
  simpl. unfold bind, lookup_term.
  destruct (Dict.get GOdict GOid) as [t|] eqn:Et.
  - destruct Hin as [->|Hin]; [congruence|].
    destruct (IH (ex_intro _ g (conj Hin Hg))) as (k & Hk & Hgk & E).
    exists k. unfold ret at 1. rewrite E. auto.
  - exists GOid. simpl. auto.
Qed.


Lemma extends_any_table_ok bT sT GOdict gafDict gafSubset minGenes threshold
    fuel GOid s :
  table_ok s ->
  table_ok (snd (recursiveTester bT sT GOdict gafDict gafSubset minGenes
                                 threshold fuel GOid s)).
Proof.
  destruct (recursiveTester_extends bT sT GOdict gafDict gafSubset minGenes
              threshold fuel GOid s) as [new H].
  apply (extends_table_ok _ _ _ _ H).
Qed.




(** X9.  When some gene of the subset map carries a term that the hierarchy
    does not know, the analysis raises the [KeyError] of such a term while it
    collects the ancestors of the subset terms: no test is made and the
    table is still the empty one it started from. *)
Theorem enrichmentAnalysis_unknown_subset_term :
  forall (fuel : nat) (GOdict : Dict.t GOterm)
         (gafDict gafSubset : Dict.t (list term)) (minGenes : Z)
         (threshold : Q),
    (exists gene GOids GOid,
        In (gene, GOids) (Dict.items gafSubset) /\ In GOid GOids /\
        Dict.get GOdict GOid = None) ->
    exists k,
      enrichmentAnalysis fuel GOdict gafDict gafSubset minGenes threshold =
        (Raised (KeyError k), new_results) /\
      Dict.get GOdict k = None /\
      exists gene GOids,
        In (gene, GOids) (Dict.items gafSubset) /\ In k GOids.
Proof.
  intros fuel GOdict gafDict gafSubset minGenes threshold
         (gene & GOids & GOid & Hin & HG & Hg).
  destruct (ancestors_of_unknown GOdict (subsetGOids gafSubset) new_results)
    as (k & Hk & Hgk & E).
  { exists GOid. split; [|assumption]. apply In_subsetGOids. eauto. }
  exists k. split; [|split; [assumption|now apply In_subsetGOids]].
  unfold enrichmentAnalysis, baseGOids, subsetGOidsParents, bind.
  now rewrite E.
Qed.

(** A subset gene with the unknown term [X]. *)
Lemma enrichmentAnalysis_unknown_subset_term_stray :
  exists k,
    enrichmentAnalysis 3 chain chain_background stray_subset 3 (1 # 20) =
      (Raised (KeyError k), new_results) /\
    Dict.get chain k = None.
Proof.
  destruct (enrichmentAnalysis_unknown_subset_term 3 chain chain_background
              stray_subset 3 (1 # 20)) as (k & E & Hk & _).
  - exists "g2", ["X"], "X". simpl. auto.
  - exists k. auto.
Defined.

(** ** Which terms a run tests *)

Lemma extends_weaken (P P' : term -> Prop) s new s' :
  (forall k, P k -> P' k) -> extends P s new s' -> extends P' s new s'.
Proof.
  intros HP H. constructor; try apply H.
  intros sub k Hin. destruct (ext_new _ _ _ _ H sub k Hin) as (H1 & H2 & H3 & H4).
  auto.
Qed.

Lemma for_each_extends_in {A : Type} P (body : A -> M unit) (l : list A) :
  (forall x, In x l -> forall s, exists new, extends P s new (snd (body x s))) ->
  forall s, exists new, extends P s new (snd (for_each l body s)).
Proof.
  induction l as [|x l IH]; intros Hbody s; simpl.
  - exists []. apply extends_refl.
  - unfold bind. destruct (Hbody x (or_introl eq_refl) s) as [n1 H1].
    destruct (body x s) as [[[]| e |] s1]; simpl in H1.
    + destruct (IH (fun y Hy => Hbody y (or_intror Hy)) s1) as [n2 H2].
      exists (n1 ++ n2). eapply extends_trans; eauto.
    + now exists n1.
    + now exists n1.
Qed.

(** A term with a p-value after an extension had one before or satisfies the
    property of the extension. *)
Lemma extends_recorded_inv P s new s' k :
  extends P s new s' -> recorded s' k -> recorded s k \/ P k.
Proof.
  intros H Hk. destruct (in_events_dec new k) as [[sub Hin]|Hout].
  - right. now apply (ext_new _ _ _ _ H) in Hin.
  - left. unfold recorded in *. now rewrite <- (ext_frame _ _ _ _ H).
Qed.

Section Characterisation.

Variables backgroundTotal subsetTotal : Z.
Variable GOdict : Dict.t GOterm.
Variables gafDict gafSubset : Dict.t (list term).
Variable minGenes : Z.
Variable threshold : Q.

Let tester : nat -> term -> M unit :=
  recursiveTester backgroundTotal subsetTotal GOdict gafDict gafSubset
                  minGenes threshold.
Let vis : list term -> term -> Prop :=
  visited backgroundTotal subsetTotal GOdict gafDict gafSubset minGenes
          threshold.
Let goes_on : term -> GOterm -> bool :=
  propagates backgroundTotal subsetTotal gafDict gafSubset minGenes threshold.
Let done : store -> term -> Prop := settled GOdict gafDict minGenes.
Let closed : list term -> store -> Prop :=
  closed_except backgroundTotal subsetTotal GOdict gafDict gafSubset minGenes
                threshold.

Lemma visited_incl roots roots' k :
  (forall r, In r roots -> vis roots' r) -> vis roots k -> vis roots' k.
Proof.
  intros H Hk. induction Hk as [k Hin|k t p Hk IH Ht Hp Hin].
  - now apply H.
  - eapply visited_parent; eauto.
Qed.

Lemma visited_parent_root GOid t p k :
  Dict.get GOdict GOid = Some t -> goes_on GOid t = true ->
  In p (parents t) -> vis [p] k -> vis [GOid] k.
Proof.
  intros Ht Hgo Hp. apply visited_incl. intros r [<-|[]].
  eapply visited_parent; eauto. apply visited_root. now left.
Qed.

Lemma visited_single_incl g roots k :
  In g roots -> vis [g] k -> vis roots k.
Proof.
  intros Hg. apply visited_incl. intros r [<-|[]]. now apply visited_root.
Qed.

(** Every call records only testable terms that it visits. *)
Lemma recursiveTester_extends_visited fuel :
  forall GOid s,
    exists new,
      extends (fun k => testable GOdict gafDict minGenes k /\ vis [GOid] k)
              s new (snd (tester fuel GOid s)).
Proof.
  induction fuel as [|fuel IH]; intros GOid s.
  - exists []. apply extends_refl.
  - unfold tester. rewrite recursiveTester_step. fold tester.
    destruct (Dict.get (table s) "pValues") as [pValues|] eqn:Epv;
      [|exists []; apply extends_refl].
    destruct (Dict.mem pValues GOid) eqn:Emem;
      [exists []; apply extends_refl|].
    destruct (Dict.get GOdict GOid) as [t|] eqn:Et;
      [|exists []; apply extends_refl].
    cbv zeta.
    assert (Hparents : goes_on GOid t = true -> forall s0,
               exists new,
                 extends (fun k => testable GOdict gafDict minGenes k /\
                                   vis [GOid] k)
                         s0 new (snd (for_each (parents t) (tester fuel) s0))).
    { intros Hgo. apply for_each_extends_in. intros p Hp s0.
      destruct (IH p s0) as [new H]. exists new.
      apply (extends_weaken _ _ _ _ _ (fun k Hk =>
               conj (proj1 Hk)
                    (visited_parent_root GOid t p k Et Hgo Hp (proj2 Hk))) H). }
    unfold goes_on, propagates in Hparents. cbv zeta in Hparents.
    destruct (Z.ltb_spec (countGOassociations (GOid :: recursive_children t) gafDict)
                         minGenes) as [Hlow|Hok].
    + now apply Hparents.
    + set (pVal := enrichmentOneSided _ _ _ _) in *.
      assert (Hnr : ~ recorded s GOid).
      { rewrite recorded_iff. intros (d & Hd & Hm). congruence. }
      assert (Hpv : Dict.get (table s) "pValues" <> None) by congruence.
      assert (HP : testable GOdict gafDict minGenes GOid /\ vis [GOid] GOid).
      { split; [exists t; split; [assumption|now apply Z.le_ngt]|].
        apply visited_root. now left. }
      unfold bind.
      match goal with
      | |- context [record_result ?k ?p ?a ?b s] =>
          destruct (record_result_extends
                      (fun k => testable GOdict gafDict minGenes k /\
                                vis [GOid] k) s k p a b Hpv Hnr HP)
            as (n1 & H1 & _);
          destruct (record_result k p a b s) as [[[]| e |] s1]
      end; simpl in H1; try (now exists n1).
      destruct (Qgtb pVal threshold) eqn:Egt; [|now exists n1].
      destruct (Hparents eq_refl s1) as [n2 H2].
      exists (n1 ++ n2). eapply extends_trans; eauto.
Qed.

Lemma settled_mono s s' k :
  (forall k, recorded s k -> recorded s' k) -> done s k -> done s' k.
Proof.
  intros H Hk. induction Hk as [k Hr|k t Ht Hlow Hp IH].
  - apply settled_recorded. now apply H.
  - eapply settled_low; eauto.
Qed.

Lemma recursiveTester_recorded_mono fuel GOid s k :
  recorded s k -> recorded (snd (tester fuel GOid s)) k.
Proof.
  destruct (recursiveTester_extends backgroundTotal subsetTotal GOdict gafDict
              gafSubset minGenes threshold fuel GOid s) as [new H].
  apply (ext_recorded _ _ _ _ H).
Qed.

Lemma for_each_recorded_mono fuel (l : list term) s k :
  recorded s k -> recorded (snd (for_each l (tester fuel) s)) k.
Proof.
  apply (for_each_preserves (fun s => recorded s k)).
  intros x s0. apply recursiveTester_recorded_mono.
Qed.

Lemma for_each_settled fuel :
  (forall GOid s s' X,
      table_ok s -> tester fuel GOid s = (Ok tt, s') -> closed X s ->
      done s' GOid /\ closed X s') ->
  forall l s s' X,
    table_ok s -> for_each l (tester fuel) s = (Ok tt, s') -> closed X s ->
    (forall p, In p l -> done s' p) /\ closed X s'.
Proof.
  intros HB. induction l as [|x l IH]; intros s s' X Hok E Hc.
  - simpl in E. inversion E; subst. split; [intros p []|assumption].
  - simpl in E. unfold bind in E.
    destruct (tester fuel x s) as [[[]| e |] s1] eqn:Ex; try discriminate.
    destruct (HB x s s1 X Hok Ex Hc) as [Hx Hc1].
    assert (Hok1 : table_ok s1).
    { pose proof (extends_any_table_ok backgroundTotal subsetTotal GOdict
                    gafDict gafSubset minGenes threshold fuel x s Hok) as H.
      fold tester in H. now rewrite Ex in H. }
    destruct (IH s1 s' X Hok1 E Hc1) as [Hl Hc'].
    split; [|assumption].
    intros p [<-|Hp]; [|now apply Hl].
    apply (settled_mono s1); [|assumption].
    intros k Hk. pose proof (for_each_recorded_mono fuel l s1 k Hk) as H.
    now rewrite E in H.
Qed.

(** A call that returns normally settles its term and keeps the table
    closed. *)
Lemma recursiveTester_settles fuel :
  forall GOid s s' X,
    table_ok s -> tester fuel GOid s = (Ok tt, s') -> closed X s ->
    done s' GOid /\ closed X s'.
Proof.
  induction fuel as [|fuel IH]; intros GOid s s' X Hok; [discriminate|].
  unfold tester. rewrite recursiveTester_step. fold tester.
  pose proof Hok as (Hpv & _).
  destruct (Dict.get (table s) "pValues") as [pValues|] eqn:Epv;
    [|congruence].
  destruct (Dict.mem pValues GOid) eqn:Emem.
  { intros E Hc. inversion E; subst s'. split; [|assumption].
    apply settled_recorded. apply recorded_iff. eauto. }
  destruct (Dict.get GOdict GOid) as [t|] eqn:Et; [|discriminate].
  cbv zeta.
  destruct (Z.ltb_spec (countGOassociations (GOid :: recursive_children t) gafDict)
                       minGenes) as [Hlow|Hge].
  { intros E Hc.
    destruct (for_each_settled fuel IH (parents t) s s' X Hok E Hc)
      as [Hp Hc'].
    split; [|assumption]. eapply settled_low; eauto. }
  set (pVal := enrichmentOneSided _ _ _ _).
  unfold bind.
  match goal with
  | |- context [record_result ?k ?p ?a ?b s] =>
      destruct (record_result_ok s k p a b Hok)
        as (s1 & -> & _ & F & P1 & _ & _ & S)
  end.
  assert (Hok1 : table_ok s1).
  { destruct Hok as (H1 & H2 & H3). unfold table_ok. rewrite !S. auto. }
  assert (Hr1 : recorded s1 GOid) by (unfold recorded; rewrite P1; discriminate).
  assert (Hmono : forall k, recorded s k -> recorded s1 k).
  { intros k Hk. destruct (string_dec k GOid) as [->|Hne]; [assumption|].
    unfold recorded in *. now rewrite F. }
  assert (Hgo : goes_on GOid t = Qgtb pVal threshold).
  { unfold goes_on, propagates. cbv zeta.
    destruct (Z.ltb_spec (countGOassociations (GOid :: recursive_children t)
                                              gafDict) minGenes);
      [lia|reflexivity]. }
  assert (Hc1 : forall X0, closed X0 s -> closed (GOid :: X0) s1).
  { intros X0 Hc k t0 Hk Hx Ht0 Hgo0 p Hp.
    assert (Hne : k <> GOid) by (intros ->; apply Hx; now left).
    assert (Hk0 : recorded s k) by (unfold recorded in *; now rewrite <- F).
    apply (settled_mono s); [assumption|].
    eapply Hc; eauto. intros Hin. apply Hx. now right. }
  destruct (Qgtb pVal threshold) eqn:Egt.
  - intros E Hc.
    destruct (for_each_settled fuel IH (parents t) s1 s' (GOid :: X) Hok1 E
                (Hc1 X Hc)) as [Hp Hc'].
    assert (Hr' : recorded s' GOid).
    { pose proof (for_each_recorded_mono fuel (parents t) s1 GOid Hr1) as H.
      now rewrite E in H. }
    split; [now apply settled_recorded|].
    intros k t0 Hk Hx Ht0 Hgo0 p Hp0.
    destruct (string_dec k GOid) as [->|Hne].
    + rewrite Et in Ht0. inversion Ht0; subst t0. now apply Hp.
    + eapply Hc'; eauto. intros [<-|Hin]; [congruence|contradiction].
  - intros E Hc. inversion E; subst s'.
    split; [now apply settled_recorded|].
    intros k t0 Hk Hx Ht0 Hgo0 p Hp0.
    destruct (string_dec k GOid) as [->|Hne].
    + rewrite Et in Ht0. inversion Ht0; subst t0.
      unfold goes_on in Hgo. congruence.
    + eapply (Hc1 X Hc); eauto. intros [<-|Hin]; [congruence|contradiction].
Qed.

(** After a loop over [bases] that started on the empty table and returned
    normally, the terms with a p-value are the testable terms visited from
    [bases]. *)
Lemma for_each_tested fuel bases s' :
  for_each bases (tester fuel) new_results = (Ok tt, s') ->
  forall k,
    recorded s' k <-> testable GOdict gafDict minGenes k /\ vis bases k.
Proof.
  intros E k. split.
  - intros Hk.
    destruct (for_each_extends_in
                (fun k => testable GOdict gafDict minGenes k /\ vis bases k)
                (tester fuel) bases) with (s := new_results) as [new H].
    { intros g Hg s. destruct (recursiveTester_extends_visited fuel g s)
        as [new H]. exists new.
      apply (extends_weaken _ _ _ _ _ (fun k Hk =>
               conj (proj1 Hk)
                    (visited_single_incl g bases k Hg (proj2 Hk))) H). }
    rewrite E in H. simpl in H.
    destruct (extends_recorded_inv _ _ _ _ k H Hk) as [Hn|HP]; [|exact HP].
    exfalso. apply Hn. reflexivity.
  - intros [Ht Hv].
    destruct (for_each_settled fuel (recursiveTester_settles fuel) bases
                new_results s' [] table_ok_new_results E) as [Hb Hc].
    { intros k0 t0 Hk0. exfalso. apply Hk0. reflexivity. }
    assert (Hd : forall q, vis bases q -> done s' q).
    { clear k Ht Hv. intros q Hq.
      induction Hq as [k Hin|k t p Hv IH Hget Hgo Hp].
      - now apply Hb.
      - inversion IH as [k0 Hr|k0 t0 Ht0 Hlow0 Hp0]; subst.
        + eapply Hc; eauto.
        + rewrite Hget in Ht0. inversion Ht0; subst t0. now apply Hp0. }
    specialize (Hd k Hv).
    inversion Hd as [k0 Hr|k0 t0 Ht0 Hlow0 Hp0]; subst; [assumption|].
    exfalso. destruct Ht as (t1 & Ht1 & Hge). rewrite Ht0 in Ht1.
    inversion Ht1; subst. contradiction.
Qed.

End Characterisation.

Lemma ancestors_of_ok_inv GOdict ids s a s' :
  ancestors_of GOdict ids s = (Ok a, s') -> a = known_ancestors GOdict ids.
Proof.
  revert a s'. induction ids as [|GOid ids IH]; intros a s' E; simpl in *.
  - inversion E. reflexivity.
  - unfold bind, lookup_term in E.
    destruct (Dict.get GOdict GOid) as [t|]; [|discriminate].
    unfold ret at 1 in E.
    destruct (ancestors_of GOdict ids s) as [[a0| e |] s1]; try discriminate.
    inversion E; subst. f_equal. eapply IH; eauto.
Qed.

Lemma baseGOids_ok_inv GOdict gafSubset s base s' :
  baseGOids GOdict gafSubset s = (Ok base, s') ->
  base = base_terms GOdict gafSubset /\ s' = s.
Proof.
  unfold baseGOids, subsetGOidsParents, bind.
  pose proof (ancestors_of_store GOdict (subsetGOids gafSubset) s) as Hs.
  destruct (ancestors_of GOdict (subsetGOids gafSubset) s)
    as [[a| e |] s0] eqn:Ea; try discriminate.
  apply ancestors_of_ok_inv in Ea. simpl in Hs. subst a s0.
  unfold ret. intros E. inversion E. split; reflexivity.
Qed.

(** A run of the analysis that returns normally is the loop over the base
    terms. *)
Lemma enrichmentAnalysis_ok_inv fuel GOdict gafDict gafSubset minGenes threshold
    tbl s :
  enrichmentAnalysis fuel GOdict gafDict gafSubset minGenes threshold
    = (Ok tbl, s) ->
  for_each (base_terms GOdict gafSubset)
    (fun GOid =>
       recursiveTester (Dict.len gafDict) (Dict.len gafSubset) GOdict gafDict
                       gafSubset minGenes threshold fuel GOid)
    new_results = (Ok tt, s) /\
  tbl = table s.
Proof.
  unfold enrichmentAnalysis. unfold bind at 1.
  destruct (baseGOids GOdict gafSubset new_results) as [[base| e |] s0] eqn:Eb;
    try discriminate.
  apply baseGOids_ok_inv in Eb. destruct Eb as [-> ->].
  unfold bind.
  destruct (for_each (base_terms GOdict gafSubset) _ new_results)
    as [[[]| e |] s1]; try discriminate.
  intros E. inversion E. split; reflexivity.
Qed.

(** X10.  When a run of the analysis returns normally, the terms that have a
    p-value in its table are exactly the terms of the hierarchy whose
    background count reaches [minGenes] and that are reached from a base
    term along parent edges out of terms that propagate (terms whose
    background count is below [minGenes] or whose p-value is above the
    threshold): no other term is tested, and none of these is left out. *)
Theorem enrichmentAnalysis_tested_terms :
  forall (fuel : nat) (GOdict : Dict.t GOterm)
         (gafDict gafSubset : Dict.t (list term)) (minGenes : Z)
         (threshold : Q) (tbl : Dict.t (Dict.t Q)) (s : store),
    enrichmentAnalysis fuel GOdict gafDict gafSubset minGenes threshold
      = (Ok tbl, s) ->
    forall k,
      recorded s k <->
      testable GOdict gafDict minGenes k /\
      visited (Dict.len gafDict) (Dict.len gafSubset) GOdict gafDict gafSubset
              minGenes threshold (base_terms GOdict gafSubset) k.
Proof.
  intros fuel GOdict gafDict gafSubset minGenes threshold tbl s E.
  apply enrichmentAnalysis_ok_inv in E. destruct E as [E _].
  now apply (for_each_tested _ _ GOdict gafDict gafSubset minGenes threshold
               fuel).
Qed.

(** The chain: [root] is tested because it is reached from [T], whose
    p-value of one third is above the threshold. *)
Lemma enrichmentAnalysis_tested_terms_chain :
  testable chain chain_background 3 "root" /\
  visited 10 3 chain chain_background chain_subset 3 (1 # 20)
          (base_terms chain chain_subset) "root".
Proof.
  apply (enrichmentAnalysis_tested_terms 3 chain chain_background chain_subset
           3 (1 # 20)
           (table (snd (enrichmentAnalysis 3 chain chain_background
                                           chain_subset 3 (1 # 20))))
           (snd (enrichmentAnalysis 3 chain chain_background chain_subset 3
                                    (1 # 20)))).
  - vm_compute. reflexivity.
  - vm_compute. discriminate.
Defined.

Lemma aligned_unrecorded s k sub :
  aligned s -> ~ recorded s k ->
  sub = "pValues" \/ sub = "interestCount" \/ sub = "backgroundCount" ->
  entry s sub k = None.
Proof.
  intros (d1 & d2 & d3 & H1 & H2 & H3 & K2 & K3) Hn Hsub.
  assert (N1 : Dict.get d1 k = None).
  { destruct (Dict.get d1 k) eqn:G; [|reflexivity].
    exfalso. apply Hn. unfold recorded, entry. rewrite H1, G. discriminate. }
  apply DictFacts.get_none_iff in N1. unfold entry.
  destruct Hsub as [-> | [-> | ->]].
  - rewrite H1. now apply DictFacts.get_none_iff.
  - rewrite H2. apply DictFacts.get_none_iff. now rewrite K2.
  - rewrite H3. apply DictFacts.get_none_iff. now rewrite K3.
Qed.

(** X11.  The content of the table does not depend on the order in which the
    base terms are processed: two loops of [recursiveTester] over lists with
    the same members, both started on the empty table and both returning
    normally, leave tables with the same entry, or none, for every term in
    every sub-dictionary.  Only the order of the keys can differ. *)
Theorem tested_terms_order_independent :
  forall (backgroundTotal subsetTotal : Z) (GOdict : Dict.t GOterm)
         (gafDict gafSubset : Dict.t (list term)) (minGenes : Z)
         (threshold : Q) (fuel1 fuel2 : nat) (bases1 bases2 : list term)
         (s1 s2 : store),
    (forall k, In k bases1 <-> In k bases2) ->
    for_each bases1
      (recursiveTester backgroundTotal subsetTotal GOdict gafDict gafSubset
                       minGenes threshold fuel1) new_results = (Ok tt, s1) ->
    for_each bases2
      (recursiveTester backgroundTotal subsetTotal GOdict gafDict gafSubset
                       minGenes threshold fuel2) new_results = (Ok tt, s2) ->
    forall sub k, entry s1 sub k = entry s2 sub k.
Proof.
  intros bT sT GOdict gafDict gafSubset minGenes threshold fuel1 fuel2
         bases1 bases2 s1 s2 Hsame E1 E2 sub k.
  set (Inv := fun s =>
         (table_ok s /\
          forall k, recorded s k ->
            entries_of bT sT GOdict gafDict gafSubset minGenes s k) /\
         aligned s /\
         (table_ok s /\ Dict.keys (table s) = Dict.keys (table new_results))).
  assert (Hinv : forall fuel bases, Inv (snd (for_each bases
                   (recursiveTester bT sT GOdict gafDict gafSubset minGenes
                                    threshold fuel) new_results))).
  { intros fuel bases. apply for_each_preserves.
    - intros g s (Ha & Hb & Hc). split; [|split].
      + now apply recursiveTester_entries.
      + now apply recursiveTester_aligned.
      + now apply recursiveTester_table_keys.
    - split; [|split].
      + split; [apply table_ok_new_results|].
        intros k0 Hk0. exfalso. apply Hk0. reflexivity.
      + apply aligned_new_results.
      + split; [apply table_ok_new_results|reflexivity]. }
  pose proof (Hinv fuel1 bases1) as ((_ & V1) & A1 & (_ & K1)).
  pose proof (Hinv fuel2 bases2) as ((_ & V2) & A2 & (_ & K2)).
  rewrite E1 in V1, A1, K1. rewrite E2 in V2, A2, K2. simpl in *.
  assert (Hrec : recorded s1 k <-> recorded s2 k).
  { rewrite (for_each_tested _ _ _ _ _ _ _ _ _ _ E1 k).
    rewrite (for_each_tested _ _ _ _ _ _ _ _ _ _ E2 k).
    split; intros [Ht Hv]; (split; [assumption|]);
      revert Hv; apply visited_incl; intros r Hr; apply visited_root;
      now apply Hsame. }
  destruct (in_dec string_dec sub ["pValues"; "interestCount"; "backgroundCount"])
    as [Hsub|Hsub].
  - assert (Hsub' : sub = "pValues" \/ sub = "interestCount" \/
                    sub = "backgroundCount")
      by (simpl in Hsub; intuition).
    destruct (entry s1 "pValues" k) as [p|] eqn:Ep.
    + assert (R1 : recorded s1 k) by (unfold recorded; congruence).
      assert (R2 : recorded s2 k) by now apply Hrec.
      destruct (V1 k R1) as (t1 & Ht1 & _ & Q1 & Q2 & Q3).
      destruct (V2 k R2) as (t2 & Ht2 & _ & Q1' & Q2' & Q3').
      rewrite Ht1 in Ht2. inversion Ht2; subst t2.
      destruct Hsub' as [-> | [-> | ->]]; congruence.
    + assert (R1 : ~ recorded s1 k) by (unfold recorded; congruence).
      assert (R2 : ~ recorded s2 k) by now rewrite <- Hrec.
      rewrite (aligned_unrecorded s1 k sub A1 R1 Hsub').
      now rewrite (aligned_unrecorded s2 k sub A2 R2 Hsub').
  - unfold entry.
    assert (N1 : Dict.get (table s1) sub = None)
      by (apply DictFacts.get_none_iff; now rewrite K1).
    assert (N2 : Dict.get (table s2) sub = None)
      by (apply DictFacts.get_none_iff; now rewrite K2).
    now rewrite N1, N2.
Qed.

(** The diamond from [A] first and from [B] first: the same entries. *)
Lemma tested_terms_order_independent_diamond :
  entry (snd (for_each ["A"; "B"]
           (recursiveTester 10 2 diamond diamond_background diamond_subset 1
                            (1 # 100) 5) new_results)) "pValues" "G" =
  entry (snd (for_each ["B"; "A"]
           (recursiveTester 10 2 diamond diamond_background diamond_subset 1
                            (1 # 100) 5) new_results)) "pValues" "G".
Proof.
  apply (tested_terms_order_independent 10 2 diamond diamond_background
           diamond_subset 1 (1 # 100) 5 5 ["A"; "B"] ["B"; "A"]).
  - intros k. simpl. tauto.
  - vm_compute. reflexivity.
  - vm_compute. reflexivity.
Defined.

(** ** Correction after the analysis *)

Lemma set_set_same {V : Type} (d : Dict.t V) k v v' :
  Dict.set (Dict.set d k v) k v' = Dict.set d k v'.
Proof.
  induction d as [|[k0 v0] d IH]; simpl.
  - now rewrite String.eqb_refl.
  - destruct (String.eqb k0 k) eqn:E; simpl; rewrite E; [reflexivity|].
    now rewrite IH.
Qed.

(** X12.  Correcting a table twice leaves what the second correction alone
    leaves: the first ['corr'] is replaced, nothing else is touched, and a
    table without ['pValues'] raises the same [KeyError] either way.  In
    particular the corrector is idempotent. *)
Theorem multipleTestingCorrection_twice :
  forall (testType1 testType2 : string) (threshold1 threshold2 : Q)
         (s : store),
    bind (multipleTestingCorrection testType1 threshold1)
         (fun _ => multipleTestingCorrection testType2 threshold2) s =
    multipleTestingCorrection testType2 threshold2 s.
Proof.
  intros t1 t2 th1 th2 s. unfold bind.
  rewrite (multipleTestingCorrection_step t1 th1 s).
  destruct (Dict.get (table s) "pValues") as [d|] eqn:Ed.
  - rewrite !multipleTestingCorrection_step. cbn [table assigned].
    rewrite DictFacts.get_set_other, Ed by discriminate.
    now rewrite set_set_same.
  - rewrite multipleTestingCorrection_step, Ed. reflexivity.
Qed.

(** X13.  The table of an analysis that returned normally and tested at
    least one term can be corrected: the corrector returns normally on it,
    whatever the method, ['corr'] then holds exactly the tested terms, in
    the order of ['pValues'], and the three sub-dictionaries of the analysis
    are the ones it returned.  (With no tested term the list handed to
    [multipletests] is empty, a case left to the library.) *)
Theorem multipleTestingCorrection_after_analysis :
  forall (fuel : nat) (GOdict : Dict.t GOterm)
         (gafDict gafSubset : Dict.t (list term)) (minGenes : Z)
         (threshold : Q) (tbl : Dict.t (Dict.t Q)) (s : store)
         (testType : string) (alpha : Q),
    enrichmentAnalysis fuel GOdict gafDict gafSubset minGenes threshold
      = (Ok tbl, s) ->
    (exists k0, recorded s k0) ->
    exists s' pValues corr,
      multipleTestingCorrection testType alpha s = (Ok tt, s') /\
      Dict.get tbl "pValues" = Some pValues /\
      Dict.get (table s') "corr" = Some corr /\
      Dict.keys corr = Dict.keys pValues /\
      (forall k, recorded s k <-> entry s' "corr" k <> None) /\
      (forall sub, sub <> "corr" ->
                   Dict.get (table s') sub = Dict.get tbl sub).
Proof.
  intros fuel GOdict gafDict gafSubset minGenes threshold tbl s testType alpha
         E _.
  pose proof (enrichmentAnalysis_wf fuel GOdict gafDict gafSubset minGenes
                threshold) as Hwf.
  pose proof (enrichmentAnalysis_preserves table_ok fuel GOdict gafDict
                gafSubset minGenes threshold table_ok_new_results
                (fun GOid s0 => extends_any_table_ok _ _ GOdict gafDict
                                  gafSubset minGenes threshold fuel GOid s0))
    as Hok.
  rewrite E in Hwf, Hok. simpl in Hwf, Hok.
  apply enrichmentAnalysis_ok_inv in E. destruct E as [_ ->].
  destruct Hok as (Hpv & _).
  destruct (Dict.get (table s) "pValues") as [d|] eqn:Ed; [|congruence].
  assert (Hd : Dict.wf d) by (eapply Hwf; eauto).
  rewrite multipleTestingCorrection_step, Ed, (corr_is_zip d _ _ Hd).
  assert (Hkeys : Dict.keys (combine (Dict.keys d)
                    (snd (multipletests (Dict.values d) alpha
                                        (method_of testType)))) = Dict.keys d).
  { apply keys_combine. rewrite length_multipletests.
    unfold Dict.keys, Dict.values. now rewrite !length_map. }
  eexists _, d, _. split; [reflexivity|]. cbn [table].
  split; [reflexivity|].
  split; [apply DictFacts.get_set_same|].
  split; [exact Hkeys|]. split.
  - intros k. unfold recorded, entry. cbn [table].
    rewrite Ed, DictFacts.get_set_same.
    rewrite !DictFacts.get_some_in. now rewrite Hkeys.
  - intros sub Hne. apply DictFacts.get_set_other. congruence.
Qed.

(** The chain, analysed and then corrected with Bonferroni. *)
Lemma multipleTestingCorrection_after_analysis_chain :
  exists (s' : store) (pValues corr : Dict.t Q),
    multipleTestingCorrection "bonferroni" (1 # 20)
      (snd (enrichmentAnalysis 3 chain chain_background chain_subset 3
                               (1 # 20))) = (Ok tt, s') /\
    Dict.get (table s') "corr" = Some corr /\
    Dict.keys corr = Dict.keys pValues.
Proof.
  destruct (multipleTestingCorrection_after_analysis 3 chain chain_background
              chain_subset 3 (1 # 20)
              (table (snd (enrichmentAnalysis 3 chain chain_background
                                              chain_subset 3 (1 # 20))))
              (snd (enrichmentAnalysis 3 chain chain_background chain_subset 3
                                       (1 # 20)))
              "bonferroni" (1 # 20))
    as (s' & pValues & corr & H1 & _ & H3 & H4 & _).
  - vm_compute. reflexivity.
  - exists "T". vm_compute. discriminate.
  - exists s', pValues, corr. auto.
Defined.

(** ** More successes, smaller p-value *)

Lemma hypergeom_cdf_fraction k M n N :
  0 <= k ->
  (hypergeom_cdf k M n N ==
   inject_Z (zsum (mass_num M n N) (seq 0 (S (Z.to_nat k))))
   / inject_Z (comb M N))%Q.
Proof.
  intros Hk. unfold hypergeom_cdf.
  destruct (Z.ltb_spec k 0); [lia|]. apply fold_mass.
Qed.

Lemma hypergeom_cdf_monotone k k' M n N :
  0 <= n <= M -> 0 <= N <= M -> k <= k' ->
  (hypergeom_cdf k M n N <= hypergeom_cdf k' M n N)%Q.
Proof.
  intros Hn HN Hle.
  destruct (mass_num_total M n N Hn HN) as [_ Hc].
  assert (Hinv : (0 <= / inject_Z (comb M N))%Q).
  { apply Qinv_le_0_compat. change 0%Q with (inject_Z 0).
    rewrite <- Zle_Qle. lia. }
  assert (Hfrac : forall a b, a <= b ->
             (inject_Z a / inject_Z (comb M N)
              <= inject_Z b / inject_Z (comb M N))%Q).
  { intros a b Hab. unfold Qdiv. apply Qmult_le_compat_r; [|assumption].
    now rewrite <- Zle_Qle. }
  destruct (Z.lt_ge_cases k' 0) as [Hneg'|Hpos'].
  - unfold hypergeom_cdf.
    destruct (Z.ltb_spec k 0); [|lia]. destruct (Z.ltb_spec k' 0); [|lia].
    apply Qle_refl.
  - rewrite (hypergeom_cdf_fraction k' M n N Hpos').
    pose proof (mass_num_partial M n N (Z.to_nat k') Hn HN) as [H0 _].
    destruct (Z.lt_ge_cases k 0) as [Hneg|Hpos].
    + unfold hypergeom_cdf at 1. destruct (Z.ltb_spec k 0); [|lia].
      apply Qle_shift_div_l.
      * change 0%Q with (inject_Z 0). now rewrite <- Zlt_Qlt.
      * rewrite Qmult_0_l. change 0%Q with (inject_Z 0).
        now rewrite <- Zle_Qle.
    + rewrite (hypergeom_cdf_fraction k M n N Hpos). apply Hfrac.
      replace (S (Z.to_nat k'))
        with (S (Z.to_nat k) + (Z.to_nat k' - Z.to_nat k))%nat by lia.
      rewrite seq_app, zsum_app.
      assert (0 <= zsum (mass_num M n N)
                        (seq (0 + S (Z.to_nat k)) (Z.to_nat k' - Z.to_nat k)))
        by (apply zsum_nonneg; intros; apply mass_num_nonneg).
      lia.
Qed.

(** X14.  For consistent counts the p-value does not grow with the number of
    successes: a larger [subsetGO] gives a p-value that is at most the one of
    a smaller [subsetGO]. *)
Theorem enrichmentOneSided_antitone :
  forall subsetGO subsetGO' backgroundTotal backgroundGO subsetTotal : Z,
    0 <= backgroundGO <= backgroundTotal ->
    0 <= subsetTotal <= backgroundTotal ->
    subsetGO <= subsetGO' ->
    (enrichmentOneSided subsetGO' backgroundTotal backgroundGO subsetTotal <=
     enrichmentOneSided subsetGO backgroundTotal backgroundGO subsetTotal)%Q.
Proof.
  intros k k' M n N Hn HN Hle.
  unfold enrichmentOneSided, hypergeom_sf. cbv zeta.
  assert (H : (hypergeom_cdf (k - 1) M n N <= hypergeom_cdf (k' - 1) M n N)%Q)
    by (apply hypergeom_cdf_monotone; auto; lia).
  lra.
Qed.

(** Three successes are less likely than two. *)
Lemma enrichmentOneSided_antitone_sample :
  (enrichmentOneSided 3 10 4 3 <= enrichmentOneSided 2 10 4 3)%Q.
Proof.
  apply enrichmentOneSided_antitone; lia.
Defined.
